(** * Pointer queues and CPU-time counters of HotSpot

    A shallow embedding of
    - [src/hotspot/share/gc/shared/ptrQueue.hpp] (PtrQueue, BufferNode,
      BufferNode::Allocator, PtrQueueSet), and
    - [src/hotspot/share/runtime/cpuTimeCounters.cpp] (CPUTimeCounters),
    followed by the properties of these classes.

    Machine integers are values of [Z] with the wrap-around of their C++
    type written out; pointers are addresses in [Z] with [0] for
    [nullptr]; the C++ heap is a finite map from node addresses to
    [BufferNode] values, so that two pointers to one node alias. *)

From Stdlib Require Import ZArith Lia String.
From stdpp Require Import base option list gmap.

Local Open Scope Z_scope.

(** ** The platform *)

(** [LP64_ONLY(x) NOT_LP64(y)] selects [x] on a 64-bit platform and [y]
    otherwise; [LP64] is the switch. *)
Class Platform := { LP64 : bool }.

Section machine.
Context `{Platform}.

(** Width of [size_t] and of a pointer, in bits. *)
Definition size_t_bits : Z := if LP64 then 64 else 32.

(** [sizeof(void* )] and [sizeof(size_t)]. *)
Definition sizeof_pointer : Z := if LP64 then 8 else 4.

(** Conversion to [size_t]: unsigned arithmetic wraps. *)
Definition to_size_t (z : Z) : Z := z mod 2 ^ size_t_bits.

(** Arithmetic on a [char*]: an address of pointer width. *)
Definition to_address (z : Z) : Z := z mod 2 ^ size_t_bits.

(** The values of [size_t], which are also the addresses. *)
Definition is_size_t (z : Z) : Prop := 0 <= z < 2 ^ size_t_bits.
End machine.

(** ** Fatal errors *)

Variant fault :=
  | AssertionFailure (msg : string)
  | InvalidAccess
  | OutOfMemory.

Variant outcome (A : Type) :=
  | Done (a : A)
  | Fatal (f : fault).
Arguments Done {A} a.
Arguments Fatal {A} f.

#[global] Instance outcome_ret : MRet outcome := λ A a, Done a.
#[global] Instance outcome_bind : MBind outcome := λ A B k m,
  match m with
  | Done a => k a
  | Fatal f => Fatal f
  end.

(** Modelled from the spec: the [assert] macro comes from
    utilities/debug.hpp, which is not embedded here.
    A violated precondition is a programming error
    that triggers an immediate abort (assertion failure), not a
    recoverable error. *)
Definition assert (p : bool) (msg : string) : outcome unit :=
  if p then Done () else Fatal (AssertionFailure msg).

(** ** BufferNode *)

Module BufferNode.

(** [_buffer] is the slot array that follows the header; a slot that was
    never written holds [None]. *)
Record t := mk {
  _index : Z;
  _capacity : Z;
  _next : Z;
  _buffer : list (option Z)
}.

Section with_platform.
Context `{Platform}.

(** [using InternalSizeType = LP64_ONLY(uint32_t) NOT_LP64(uint16_t)] *)
Definition InternalSizeType_bits : Z := if LP64 then 32 else 16.
Definition sizeof_InternalSizeType : Z := if LP64 then 4 else 2.

(** [static_cast<InternalSizeType>(z)], also the conversion of an
    argument passed for a parameter of that type. *)
Definition InternalSizeType (z : Z) : Z := z mod 2 ^ InternalSizeType_bits.

(** The constructor, run on the memory [storage] of the slot array,
    which it does not touch. *)
Definition BufferNode (capacity : Z) (storage : list (option Z)) : t :=
  {| _index := InternalSizeType capacity;
     _capacity := InternalSizeType capacity;
     _next := 0;
     _buffer := storage |}.

(** [offset_of(BufferNode, _buffer)]: two [InternalSizeType] fields,
    then the pointer [_next] at its alignment, then [_buffer]. *)
Definition align_up (x a : Z) : Z := (x + a - 1) / a * a.
Definition buffer_offset : Z :=
  align_up (2 * sizeof_InternalSizeType) sizeof_pointer + sizeof_pointer.

(** [std::numeric_limits<InternalSizeType>::max()] *)
Definition max_size : Z := 2 ^ InternalSizeType_bits - 1.

Definition next (n : t) : Z := _next n.
Definition set_next (n : t) (n' : Z) : t :=
  {| _index := _index n; _capacity := _capacity n;
     _next := n'; _buffer := _buffer n |}.
Definition index (n : t) : Z := _index n.
Definition capacity (n : t) : Z := _capacity n.

Definition set_index (n : t) (i : Z) : outcome t :=
  assert (i <=? capacity n) "precondition";;
  mret {| _index := InternalSizeType i; _capacity := _capacity n;
          _next := _next n; _buffer := _buffer n |}.

Definition is_empty (n : t) : bool := index n =? capacity n.
Definition size (n : t) : Z := to_size_t (capacity n - index n).

(** Return the BufferNode containing the buffer, WITHOUT setting its
    index. *)
Definition make_node_from_buffer (buffer : Z) : Z :=
  to_address (buffer - buffer_offset).

(** Return the buffer for node. *)
Definition make_buffer_from_node (node : Z) : Z :=
  to_address (node + buffer_offset).

(** [node->...]: the node a pointer refers to. *)
Definition deref (h : gmap Z t) (node : Z) : outcome t :=
  match h !! node with
  | Some n => Done n
  | None => Fatal InvalidAccess
  end.

(** Return the BufferNode containing the buffer, after setting its
    index. *)
Definition make_node_from_buffer_index (h : gmap Z t) (buffer index : Z)
  : outcome (Z * gmap Z t) :=
  let node := make_node_from_buffer buffer in
  n ← deref h node;
  n' ← set_index n index;
  mret (node, <[node := n']> h).

(** The values a node of this platform can hold: both fields are
    of type [InternalSizeType]. *)
Definition wf (n : t) : Prop :=
  0 <= _index n <= max_size ∧ 0 <= _capacity n <= max_size.

(** The slot array of a node has [capacity] slots. *)
Definition sized (n : t) : Prop :=
  Z.of_nat (length (_buffer n)) = _capacity n.

(** The operations that act on a node, with arguments of their C++
    types. *)
Variant op :=
  | SetNext (n' : Z)
  | SetIndex (i : Z).

Definition op_typed (o : op) : Prop :=
  match o with
  | SetNext n' => is_size_t n'
  | SetIndex i => is_size_t i
  end.

Definition run (n : t) (o : op) : outcome t :=
  match o with
  | SetNext n' => Done (set_next n n')
  | SetIndex i => set_index n i
  end.
End with_platform.
End BufferNode.

(** ** PtrQueue *)

Module PtrQueue.

Record t := mk {
  _index : Z;
  _buf : Z
}.

Section with_platform.
Context `{Platform}.

Definition _element_size : Z := sizeof_pointer.

(** [is_aligned] of utilities/align.hpp. *)
Definition is_aligned (x a : Z) : bool := x mod a =? 0.

Definition byte_index_to_index (ind : Z) : outcome Z :=
  assert (is_aligned ind _element_size) "precondition";;
  mret (ind / _element_size).

Definition index_to_byte_index (ind : Z) : Z :=
  to_size_t (ind * _element_size).

(** Modelled from the spec: the constructor is defined in
    ptrQueue.cpp, not in the header embedded here.
    A queue starts with no buffer
    ([buf == null], [index == 0]). *)
Definition PtrQueue : t := {| _index := 0; _buf := 0 |}.

Definition buffer (q : t) : Z := _buf q.
Definition set_buffer (q : t) (buffer : Z) : t :=
  {| _index := _index q; _buf := buffer |}.

Definition index (q : t) : outcome Z := byte_index_to_index (_index q).

(** Modelled from the spec: [current_capacity] is defined in
    ptrQueue.cpp, not in the header embedded here.
    It is 0 if the queue
    has no buffer, else the bound node's capacity. *)
Definition current_capacity (h : gmap Z BufferNode.t) (q : t) : outcome Z :=
  if _buf q =? 0 then Done 0
  else
    n ← BufferNode.deref h (BufferNode.make_node_from_buffer (_buf q));
    mret (BufferNode.capacity n).

Definition set_index (h : gmap Z BufferNode.t) (q : t) (new_index : Z)
  : outcome t :=
  c ← current_capacity h q;
  assert (new_index <=? c) "precondition";;
  mret {| _index := index_to_byte_index new_index; _buf := _buf q |}.

Definition is_empty (h : gmap Z BufferNode.t) (q : t) : outcome bool :=
  i ← index q;
  c ← current_capacity h q;
  mret (i =? c).

Definition size (h : gmap Z BufferNode.t) (q : t) : outcome Z :=
  c ← current_capacity h q;
  i ← index q;
  mret (to_size_t (c - i)).

(** The values a queue can hold on the heap [h]: [_index] is a
    [size_t], and [_buf] is null or the buffer of a node of [h]. *)
Definition wf (h : gmap Z BufferNode.t) (q : t) : Prop :=
  is_size_t (_index q) ∧ is_size_t (_buf q) ∧
  (_buf q ≠ 0 →
   ∃ n, h !! BufferNode.make_node_from_buffer (_buf q) = Some n ∧
        BufferNode.wf n).

(** The queue borrows the node [n] of the heap [h], and [i] is the
    slot at which a value was last enqueued. *)
Definition bound (h : gmap Z BufferNode.t) (q : t) (n : BufferNode.t) (i : Z)
  : Prop :=
  _buf q ≠ 0 ∧ is_size_t (_buf q) ∧
  h !! BufferNode.make_node_from_buffer (_buf q) = Some n ∧
  BufferNode.wf n ∧ BufferNode.sized n ∧
  _index q = i * _element_size ∧ 0 <= i <= BufferNode.capacity n.
End with_platform.
End PtrQueue.

(** ** BufferNode::Allocator *)

Module Allocator.

(** [BufferNode::AllocatorConfig] *)
Record AllocatorConfig := mkConfig {
  _buffer_capacity : Z
}.

(** [_free_list] holds the addresses of the released nodes, the most
    recently released first. *)
Record t := mk {
  _config : AllocatorConfig;
  _free_list : list Z
}.

(** The C++ heap: the nodes that were allocated, by address, and the
    first address the system allocator has not handed out. *)
Record memory := mkMemory {
  nodes : gmap Z BufferNode.t;
  top : Z
}.

Section with_platform.
Context `{Platform}.

Definition buffer_capacity (a : t) : Z := _buffer_capacity (_config a).

(** Modelled from the spec: the constructor is defined in
    ptrQueue.cpp, not in the header embedded here.
    An allocator is constructed with
    a fixed [buffer_capacity]; its free list starts empty. *)
Definition Allocator (buffer_capacity : Z) : t :=
  {| _config := {| _buffer_capacity := to_size_t buffer_capacity |};
     _free_list := [] |}.


(** Bytes of one node: header, then [buffer_capacity] slots. *)
Definition node_bytes (a : t) : Z :=
  BufferNode.buffer_offset + buffer_capacity a * sizeof_pointer.

(** Modelled from the spec: [allocate] is defined in
    ptrQueue.cpp, not in the header embedded here.
    It returns a buffer node with
    capacity [buffer_capacity], empty ([index == capacity]); it pulls
    from the free list if non-empty, else allocates fresh memory sized
    for header + capacity slots.  Allocation failure is fatal. *)
Definition allocate (a : t) (m : memory) : outcome (Z * t * memory) :=
  match _free_list a with
  | node :: rest =>
      old ← BufferNode.deref (nodes m) node;
      mret (node,
            {| _config := _config a; _free_list := rest |},
            {| nodes := <[node := BufferNode.BufferNode (buffer_capacity a)
                                    (BufferNode._buffer old)]> (nodes m);
               top := top m |})
  | [] =>
      let node := top m in
      if top m + node_bytes a <? 2 ^ size_t_bits then
        mret (node, a,
              {| nodes := <[node := BufferNode.BufferNode (buffer_capacity a)
                                      (replicate (Z.to_nat (buffer_capacity a)) None)]>
                            (nodes m);
                 top := top m + node_bytes a |})
      else Fatal OutOfMemory
  end.

(** Modelled from the spec: [release] is defined in
    ptrQueue.cpp, not in the header embedded here.
    It returns a node to the free list for
    reuse, never to the system allocator. *)
Definition release (a : t) (node : Z) : t :=
  {| _config := _config a; _free_list := node :: _free_list a |}.

(** The allocator has a node to hand out: one on the free list, or
    room for a fresh one. *)
Definition can_allocate (a : t) (m : memory) : Prop :=
  _free_list a ≠ [] ∨ top m + node_bytes a < 2 ^ size_t_bits.

(** The heap and the free list fit together: the nodes lie below
    [top] with their buffers, none at the null address, and the
    free list holds nodes of the heap. *)
Definition consistent (a : t) (m : memory) : Prop :=
  0 < top m < 2 ^ size_t_bits ∧
  0 <= buffer_capacity a <= BufferNode.max_size ∧
  (∀ k n, nodes m !! k = Some n →
     0 < k ∧ k + BufferNode.buffer_offset <= top m ∧
     Z.of_nat (length (BufferNode._buffer n)) = buffer_capacity a) ∧
  (∀ k, k ∈ _free_list a → is_Some (nodes m !! k)).
End with_platform.
End Allocator.

(** ** PtrQueueSet *)

Module PtrQueueSet.

(** The set with the allocator it points to, the heap, and the calls
    made so far to the pure virtual [enqueue_completed_buffer], oldest
    first, each with the node it was given. *)
Record t := mk {
  _allocator : Allocator.t;
  mem : Allocator.memory;
  completed : list Z
}.

Section with_platform.
Context `{Platform}.

Definition heap (s : t) : gmap Z BufferNode.t := Allocator.nodes (mem s).

Definition set_heap (s : t) (h : gmap Z BufferNode.t) : t :=
  {| _allocator := _allocator s;
     mem := {| Allocator.nodes := h; Allocator.top := Allocator.top (mem s) |};
     completed := completed s |}.

Definition buffer_capacity (s : t) : Z :=
  Allocator.buffer_capacity (_allocator s).

(** [virtual void enqueue_completed_buffer(BufferNode* node) = 0]: the
    call is recorded. *)
Definition enqueue_completed_buffer (s : t) (node : Z) : t :=
  {| _allocator := _allocator s; mem := mem s;
     completed := completed s ++ [node] |}.

(** Modelled from the spec: [deallocate_buffer] is defined in
    ptrQueue.cpp, not in the header embedded here.
    It is a thin
    pass-through to the allocator's [release]. *)
Definition deallocate_buffer (s : t) (node : Z) : t :=
  {| _allocator := Allocator.release (_allocator s) node; mem := mem s;
     completed := completed s |}.

(** [buffer[index] = value]: a store into the slot array at address
    [buffer], which belongs to the node in front of it. *)
Definition store (h : gmap Z BufferNode.t) (buffer index value : Z)
  : outcome (gmap Z BufferNode.t) :=
  let node := BufferNode.make_node_from_buffer buffer in
  n ← BufferNode.deref h node;
  if (0 <=? index) && (index <? Z.of_nat (length (BufferNode._buffer n))) then
    mret (<[node := {| BufferNode._index := BufferNode._index n;
                       BufferNode._capacity := BufferNode._capacity n;
                       BufferNode._next := BufferNode._next n;
                       BufferNode._buffer :=
                         <[Z.to_nat index := Some value]> (BufferNode._buffer n) |}]> h)
  else Fatal InvalidAccess.

(** Modelled from the spec: [try_enqueue] is defined in
    ptrQueue.cpp, not in the header embedded here.
    If [queue.buf == null] or the
    buffer is full ([index == 0]), it returns failure (no mutation).
    Otherwise it decrements [index] by one slot width and stores
    [value] at the new [index] position; it returns success. *)
Definition try_enqueue (s : t) (queue : PtrQueue.t) (value : Z)
  : outcome (bool * t * PtrQueue.t) :=
  if PtrQueue.buffer queue =? 0 then mret (false, s, queue)
  else
    index ← PtrQueue.index queue;
    if index =? 0 then mret (false, s, queue)
    else
      let index := index - 1 in
      h ← store (heap s) (PtrQueue.buffer queue) index value;
      queue' ← PtrQueue.set_index h queue index;
      mret (true, set_heap s h, queue').

(** Modelled from the spec: [install_new_buffer] is defined in
    ptrQueue.cpp, not in the header embedded here.
    It unconditionally
    gives the queue a fresh empty node from the allocator, discarding
    any reference to a previous node. *)
Definition install_new_buffer (s : t) (queue : PtrQueue.t)
  : outcome (t * PtrQueue.t) :=
  '(node, a, m) ← Allocator.allocate (_allocator s) (mem s);
  n ← BufferNode.deref (Allocator.nodes m) node;
  let queue := PtrQueue.set_buffer queue (BufferNode.make_buffer_from_node node) in
  queue ← PtrQueue.set_index (Allocator.nodes m) queue (BufferNode.capacity n);
  mret ({| _allocator := a; mem := m; completed := completed s |}, queue).

(** Modelled from the spec: [exchange_buffer_with_new] is defined in
    ptrQueue.cpp, not in the header embedded here.
    It swaps in a fresh
    node and returns the previous node (or null if the queue had
    none); the returned node carries the queue's index. *)
Definition exchange_buffer_with_new (s : t) (queue : PtrQueue.t)
  : outcome (Z * t * PtrQueue.t) :=
  '(node, s) ←
    (if PtrQueue.buffer queue =? 0 then mret (0, s)
     else
       index ← PtrQueue.index queue;
       '(node, h) ← BufferNode.make_node_from_buffer_index
                      (heap s) (PtrQueue.buffer queue) index;
       mret (node, set_heap s h));
  '(s, queue) ← install_new_buffer s queue;
  mret (node, s, queue).

(** Modelled from the spec: [flush_queue] is defined in
    ptrQueue.cpp, not in the header embedded here.
    If the queue has unconsumed entries, the buffer is treated as
    completed and routed via [enqueue_completed_buffer]; otherwise
    (buffer empty or absent) the node is released back to the
    allocator's free list directly.  Either way, the queue ends with no
    buffer.  The node is the one in front of the queue's buffer, with the
    queue's index, and null for a queue that has no buffer. *)
Definition flush_queue (s : t) (queue : PtrQueue.t)
  : outcome (t * PtrQueue.t) :=
  empty ← PtrQueue.is_empty (heap s) queue;
  '(node, s) ←
    (if PtrQueue.buffer queue =? 0 then mret (0, s)
     else
       index ← PtrQueue.index queue;
       '(node, h) ← BufferNode.make_node_from_buffer_index
                      (heap s) (PtrQueue.buffer queue) index;
       mret (node, set_heap s h));
  let s := if negb empty
           then enqueue_completed_buffer s node
           else deallocate_buffer s node in
  let queue := PtrQueue.set_buffer queue 0 in
  queue ← PtrQueue.set_index (heap s) queue 0;
  mret (s, queue).

(** A run of [try_enqueue] calls, with the result of each. *)
Fixpoint try_enqueue_all (s : t) (queue : PtrQueue.t) (values : list Z)
  : outcome (list bool * t * PtrQueue.t) :=
  match values with
  | [] => mret ([], s, queue)
  | value :: values =>
      '(r, s, queue) ← try_enqueue s queue value;
      '(rs, s, queue) ← try_enqueue_all s queue values;
      mret (r :: rs, s, queue)
  end.
End with_platform.
End PtrQueueSet.

(** ** CPUTimeGroups and CPUTimeCounters *)

(** [jlong]: 64 bits, two's complement. *)
Definition to_jlong (z : Z) : Z := (z + 2 ^ 63) mod 2 ^ 64 - 2 ^ 63.

Module CPUTimeGroups.

Variant CPUTimeType :=
  | gc_total
  | gc_parallel_workers
  | gc_conc_mark
  | gc_conc_refine
  | gc_service
  | vm
  | conc_dedup.

#[global] Instance CPUTimeType_eq_dec : EqDecision CPUTimeType.
Proof. solve_decision. Defined.

Definition to_string (val : CPUTimeType) : string :=
  match val with
  | gc_total => "total_gc_cpu_time"
  | gc_parallel_workers => "gc_parallel_workers"
  | gc_conc_mark => "gc_conc_mark"
  | gc_conc_refine => "gc_conc_refine"
  | gc_service => "gc_service"
  | vm => "vm"
  | conc_dedup => "conc_dedup"
  end.

Definition is_gc_counter (val : CPUTimeType) : bool :=
  match val with
  | gc_parallel_workers => true
  | gc_conc_mark => true
  | gc_conc_refine => true
  | gc_service => true
  | _ => false
  end.
End CPUTimeGroups.

Module CPUTimeCounters.
Import CPUTimeGroups.

Variant CounterNS := SUN_THREADS | SUN_THREADS_CPUTIME.

(** [_cpu_time_counters] gives, for each group, the value of the
    [PerfCounter] its entry points to, or [None] for [nullptr]. *)
Record t := mk {
  _cpu_time_counters : CPUTimeType → option Z;
  _gc_total_cpu_time_diff : Z
}.

(** What the virtual machine was started with: the flag [UsePerfData],
    the answer of [os::is_thread_cpu_time_supported()], and the value of
    the counter that [PerfDataManager::create_counter] hands out. *)
Class Runtime := {
  UsePerfData : bool;
  is_thread_cpu_time_supported : bool;
  PerfDataManager_create_counter : CounterNS → string → Z
}.

(** [Atomic::add(dest, add_value)] on [_gc_total_cpu_time_diff]. *)
Definition Atomic_add (s : t) (add_value : Z) : t :=
  {| _cpu_time_counters := _cpu_time_counters s;
     _gc_total_cpu_time_diff := to_jlong (_gc_total_cpu_time_diff s + add_value) |}.

(** [Atomic::load(dest)] on [_gc_total_cpu_time_diff]. *)
Definition Atomic_load (s : t) : Z := _gc_total_cpu_time_diff s.

(** [Atomic::cmpxchg(dest, compare_value, exchange_value)] on
    [_gc_total_cpu_time_diff]: the value found, and the state after. *)
Definition Atomic_cmpxchg (s : t) (compare_value exchange_value : Z) : Z * t :=
  let found := _gc_total_cpu_time_diff s in
  (found,
   if found =? compare_value
   then {| _cpu_time_counters := _cpu_time_counters s;
           _gc_total_cpu_time_diff := exchange_value |}
   else s).

(** [PerfCounter::inc(jlong val)] on the counter of [name]. *)
Definition PerfCounter_inc (s : t) (name : CPUTimeType) (val : Z) : outcome t :=
  match _cpu_time_counters s name with
  | Some v =>
      Done {| _cpu_time_counters := λ k,
                if decide (k = name) then Some (to_jlong (v + val))
                else _cpu_time_counters s k;
              _gc_total_cpu_time_diff := _gc_total_cpu_time_diff s |}
  | None => Fatal InvalidAccess
  end.

Definition get_counter (s : t) (name : CPUTimeType) : option Z :=
  _cpu_time_counters s name.

Section with_runtime.
Context `{Runtime}.

Definition create_counter (s : t) (ns : CounterNS) (name : CPUTimeType) : t :=
  if UsePerfData then
    if is_thread_cpu_time_supported then
      {| _cpu_time_counters := λ k,
           if decide (k = name)
           then Some (PerfDataManager_create_counter ns (to_string name))
           else _cpu_time_counters s k;
         _gc_total_cpu_time_diff := _gc_total_cpu_time_diff s |}
    else s
  else s.

Definition CPUTimeCounters : t :=
  create_counter
    {| _cpu_time_counters := λ _, None; _gc_total_cpu_time_diff := 0 |}
    SUN_THREADS gc_total.
End with_runtime.

Definition inc_gc_total_cpu_time (s : t) (diff : Z) : t :=
  Atomic_add s diff.

(** The [do ... while (old_value != fetched_value)] loop; it is entered
    with the value loaded into [fetched_value] and ends with the value
    the successful exchange found. *)
Fixpoint publish_loop (fuel : nat) (s : t) (fetched_value : Z) : option (Z * t) :=
  match fuel with
  | O => None
  | S fuel =>
      let old_value := fetched_value in
      let '(fetched_value, s) := Atomic_cmpxchg s old_value 0 in
      if negb (old_value =? fetched_value)
      then publish_loop fuel s fetched_value
      else Some (fetched_value, s)
  end.

Definition publish_gc_total_cpu_time (fuel : nat) (s : t) : option (outcome t) :=
  let fetched_value := Atomic_load s in
  match publish_loop fuel s fetched_value with
  | Some (fetched_value, s) => Some (PerfCounter_inc s gc_total fetched_value)
  | None => None
  end.

(** The amounts of a run of [inc_gc_total_cpu_time] calls. *)
Definition inc_all (s : t) (diffs : list Z) : t :=
  foldl inc_gc_total_cpu_time s diffs.

Definition sum (diffs : list Z) : Z := foldr Z.add 0 diffs.
End CPUTimeCounters.

(** ** A scenario: one queue on a set with buffers of four slots *)

Module Scenario.

#[local] Instance lp64 : Platform := {| LP64 := true |}.
Definition ilp32 : Platform := {| LP64 := false |}.

Definition qset (capacity : Z) : PtrQueueSet.t :=
  {| PtrQueueSet._allocator := Allocator.Allocator capacity;
     PtrQueueSet.mem := {| Allocator.nodes := ∅; Allocator.top := 4096 |};
     PtrQueueSet.completed := [] |}.

(** The set and the queue once the queue got its first buffer. *)
Definition qset1 : PtrQueueSet.t :=
  {| PtrQueueSet._allocator := Allocator.Allocator 4;
     PtrQueueSet.mem :=
       {| Allocator.nodes := {[ 4096 := BufferNode.BufferNode 4 (replicate 4 None) ]};
          Allocator.top := 4144 |};
     PtrQueueSet.completed := [] |}.
Definition queue1 : PtrQueue.t := {| PtrQueue._index := 32; PtrQueue._buf := 4112 |}.

(** A node seen through a pointer: its index, capacity, size and slots. *)
Definition observe (s : PtrQueueSet.t) (node : Z) : outcome (Z * Z * Z * list (option Z)) :=
  n ← BufferNode.deref (PtrQueueSet.heap s) node;
  mret (BufferNode.index n, BufferNode.capacity n, BufferNode.size n,
        BufferNode._buffer n).

(** capacity=4 buffer; enqueue values [1,2,3,4]; [try_enqueue(5)];
    [exchange_buffer_with_new].  The results of the five enqueues, the
    node returned and the node of the new buffer. *)
Definition capacity4 :=
  '(s, q) ← PtrQueueSet.install_new_buffer (qset 4) PtrQueue.PtrQueue;
  '(rs, s, q) ← PtrQueueSet.try_enqueue_all s q [1; 2; 3; 4];
  '(r, s, q) ← PtrQueueSet.try_enqueue s q 5;
  '(node, s, q) ← PtrQueueSet.exchange_buffer_with_new s q;
  old ← observe s node;
  new ← observe s (BufferNode.make_node_from_buffer (PtrQueue.buffer q));
  i ← PtrQueue.index q;
  mret (rs, r, old, new, i).


(** A queue with a fresh buffer is flushed. *)
Definition flush_empty :=
  '(s, q) ← PtrQueueSet.install_new_buffer (qset 4) PtrQueue.PtrQueue;
  PtrQueueSet.flush_queue s q.

(** A queue with one value in its buffer is flushed. *)
Definition flush_one :=
  '(s, q) ← PtrQueueSet.install_new_buffer (qset 4) PtrQueue.PtrQueue;
  '(_, s, q) ← PtrQueueSet.try_enqueue s q 7;
  PtrQueueSet.flush_queue s q.

(** A virtual machine with performance data, whose new counters hold 0. *)
Definition runtime : CPUTimeCounters.Runtime :=
  {| CPUTimeCounters.UsePerfData := true;
     CPUTimeCounters.is_thread_cpu_time_supported := true;
     CPUTimeCounters.PerfDataManager_create_counter := λ _ _, 0 |}.

(** A virtual machine started without performance data. *)
Definition runtime_without_perf_data : CPUTimeCounters.Runtime :=
  {| CPUTimeCounters.UsePerfData := false;
     CPUTimeCounters.is_thread_cpu_time_supported := true;
     CPUTimeCounters.PerfDataManager_create_counter := λ _ _, 0 |}.
End Scenario.


(** ** PerfCounter, the second [create_counter], ThreadTotalCPUTimeClosure *)

(** [void CPUTimeCounters::create_counter(CPUTimeGroups::CPUTimeType group)],
    the second function of that name. *)
Definition create_counter_group `{CPUTimeCounters.Runtime}
  (s : CPUTimeCounters.t) (group : CPUTimeGroups.CPUTimeType) : CPUTimeCounters.t :=
  CPUTimeCounters.create_counter s CPUTimeCounters.SUN_THREADS_CPUTIME group.

Module PerfCounter.

(** [PerfCounter::get_value()] on the counter of [name]; a null entry
    cannot be read. *)
Definition get_value (s : CPUTimeCounters.t) (name : CPUTimeGroups.CPUTimeType)
  : outcome Z :=
  match CPUTimeCounters.get_counter s name with
  | Some v => Done v
  | None => Fatal InvalidAccess
  end.

(** The value of a counter, 0 for a null entry. *)
Definition value (s : CPUTimeCounters.t) (name : CPUTimeGroups.CPUTimeType) : Z :=
  default 0 (CPUTimeCounters.get_counter s name).
End PerfCounter.

Module ThreadTotalCPUTimeClosure.
Import CPUTimeGroups.

Record t := mk {
  _gc_total : Z;
  _name : CPUTimeType
}.

Section with_runtime.
Context `{CPUTimeCounters.Runtime}.

(** [os::thread_cpu_time(thread)], a [jlong], for the thread at an
    address. *)
Variable thread_cpu_time : Z → Z.

Definition do_thread (c : t) (thread : Z) : outcome t :=
  assert CPUTimeCounters.is_thread_cpu_time_supported "os must support cpu time";;
  mret {| _gc_total := to_jlong (_gc_total c + thread_cpu_time thread);
          _name := _name c |}.

(** A run of [do_thread] calls, one for each thread of a list. *)
Fixpoint do_threads (c : t) (threads : list Z) : outcome t :=
  match threads with
  | [] => mret c
  | thread :: threads => c ← do_thread c thread; do_threads c threads
  end.

(** The CPU time of a list of threads. *)
Definition total_cpu_time (threads : list Z) : Z :=
  CPUTimeCounters.sum (thread_cpu_time <$> threads).
End with_runtime.

(** The destructor, on the instance [s] of [CPUTimeCounters]. *)
Definition destructor (s : CPUTimeCounters.t) (c : t) : outcome CPUTimeCounters.t :=
  let counter := _name c in
  v ← PerfCounter.get_value s counter;
  let net_cpu_time := to_jlong (_gc_total c - v) in
  s ← CPUTimeCounters.PerfCounter_inc s counter net_cpu_time;
  if is_gc_counter (_name c)
  then mret (CPUTimeCounters.inc_gc_total_cpu_time s net_cpu_time)
  else mret s.

(** The counters of the groups that [is_gc_counter] accepts, added up. *)
Definition gc_sum (s : CPUTimeCounters.t) : Z :=
  PerfCounter.value s gc_parallel_workers + PerfCounter.value s gc_conc_mark +
  PerfCounter.value s gc_conc_refine + PerfCounter.value s gc_service.

(** What [gc_total] and the difference not yet published hold beyond the
    counters of the GC groups, as a [jlong]. *)
Definition balance (s : CPUTimeCounters.t) : Z :=
  to_jlong (PerfCounter.value s gc_total
            + CPUTimeCounters._gc_total_cpu_time_diff s - gc_sum s).

(** One step of a single thread that destroys closures of groups other
    than [gc_total] and publishes. *)
Inductive step : CPUTimeCounters.t → CPUTimeCounters.t → Prop :=
  | step_destructor s c s' :
      _name c ≠ gc_total → destructor s c = Done s' → step s s'
  | step_publish fuel s s' :
      CPUTimeCounters.publish_gc_total_cpu_time fuel s = Some (Done s') →
      step s s'.

Inductive steps : CPUTimeCounters.t → CPUTimeCounters.t → Prop :=
  | steps_refl s : steps s s
  | steps_step s s' s'' : step s s' → steps s' s'' → steps s s''.
End ThreadTotalCPUTimeClosure.

(** ** [publish_gc_total_cpu_time] among other threads *)

Module Interleaved.
Import CPUTimeGroups CPUTimeCounters.

(** The loop of [publish_gc_total_cpu_time] while other threads call
    [inc_gc_total_cpu_time]: [others] gives, for each turn of the loop,
    the amounts the other threads add before the turn's [cmpxchg].  The
    loop stops without a result when [others] runs out. *)
Fixpoint publish_loop (others : list (list Z)) (s : t) (fetched_value : Z)
  : option (Z * t * nat) :=
  match others with
  | [] => None
  | before :: others =>
      let s := inc_all s before in
      let old_value := fetched_value in
      let '(fetched_value, s) := Atomic_cmpxchg s old_value 0 in
      if negb (old_value =? fetched_value)
      then
        match publish_loop others s fetched_value with
        | Some (v, s, turns) => Some (v, s, S turns)
        | None => None
        end
      else Some (fetched_value, s, 1%nat)
  end.

(** [publish_gc_total_cpu_time] with the amounts other threads add before
    the load, in each turn of the loop, and between the loop and the
    increment of the counter.  The result comes with the number of turns
    the loop took. *)
Definition publish_gc_total_cpu_time
  (before_load : list Z) (others : list (list Z)) (after_loop : list Z) (s : t)
  : option (outcome t * nat) :=
  let s := inc_all s before_load in
  let fetched_value := Atomic_load s in
  match publish_loop others s fetched_value with
  | Some (fetched_value, s, turns) =>
      let s := inc_all s after_loop in
      Some (PerfCounter_inc s gc_total fetched_value, turns)
  | None => None
  end.
End Interleaved.

(** ** More scenarios *)

Module Examples.
Import CPUTimeGroups.

(** The thread at address [t] has used [10 * t] nanoseconds. *)
Definition thread_cpu_time (thread : Z) : Z := 10 * thread.

(** The counters once every group has its counter. *)
Definition counters : CPUTimeCounters.t :=
  foldl (@create_counter_group Scenario.runtime)
    (@CPUTimeCounters.CPUTimeCounters Scenario.runtime)
    [gc_parallel_workers; gc_conc_mark; gc_conc_refine; gc_service; vm; conc_dedup].

(** A closure of the parallel workers that saw the threads 1, 2 and 3. *)
Definition workers : outcome ThreadTotalCPUTimeClosure.t :=
  @ThreadTotalCPUTimeClosure.do_threads Scenario.runtime thread_cpu_time
    {| ThreadTotalCPUTimeClosure._gc_total := 0;
       ThreadTotalCPUTimeClosure._name := gc_parallel_workers |}
    [1; 2; 3].

(** Closures with their totals: the parallel workers with 60, the VM
    thread with 25. *)
Definition closure_workers : ThreadTotalCPUTimeClosure.t :=
  {| ThreadTotalCPUTimeClosure._gc_total := 60;
     ThreadTotalCPUTimeClosure._name := gc_parallel_workers |}.
Definition closure_vm : ThreadTotalCPUTimeClosure.t :=
  {| ThreadTotalCPUTimeClosure._gc_total := 25;
     ThreadTotalCPUTimeClosure._name := vm |}.

(** The set and the queue of [Scenario.qset1] and [Scenario.queue1] once
    the values 1, 2, 3, 4 are in the buffer: the queue's index is 0, the
    node still holds the index it was made with. *)
Definition full : outcome (list bool * PtrQueueSet.t * PtrQueue.t) :=
  @PtrQueueSet.try_enqueue_all Scenario.lp64 Scenario.qset1 Scenario.queue1
    [1; 2; 3; 4].
Definition node_full : BufferNode.t :=
  {| BufferNode._index := 4; BufferNode._capacity := 4; BufferNode._next := 0;
     BufferNode._buffer := [Some 4; Some 3; Some 2; Some 1] |}.
Definition qset_full : PtrQueueSet.t :=
  {| PtrQueueSet._allocator := @Allocator.Allocator Scenario.lp64 4;
     PtrQueueSet.mem :=
       {| Allocator.nodes := {[ 4096 := node_full ]}; Allocator.top := 4144 |};
     PtrQueueSet.completed := [] |}.
Definition queue_full : PtrQueue.t := {| PtrQueue._index := 0; PtrQueue._buf := 4112 |}.

(** A node with three values, alone on a heap. *)
Definition node3 : BufferNode.t :=
  {| BufferNode._index := 1; BufferNode._capacity := 4; BufferNode._next := 0;
     BufferNode._buffer := [None; Some 7; Some 8; Some 9] |}.
Definition heap3 : gmap Z BufferNode.t := {[ 4096 := node3 ]}.
End Examples.

(** * Properties *)

(** ** Machine arithmetic *)

Lemma pow_size_t_bits `{Platform} :
  2 ^ size_t_bits = if LP64 then 18446744073709551616 else 4294967296.
Proof. unfold size_t_bits. by destruct LP64. Qed.

Lemma pow_InternalSizeType_bits `{Platform} :
  2 ^ BufferNode.InternalSizeType_bits = if LP64 then 4294967296 else 65536.
Proof. unfold BufferNode.InternalSizeType_bits. by destruct LP64. Qed.

Lemma buffer_offset_value `{Platform} :
  BufferNode.buffer_offset = if LP64 then 16 else 8.
Proof.
  unfold BufferNode.buffer_offset, BufferNode.align_up,
    BufferNode.sizeof_InternalSizeType, sizeof_pointer.
  by destruct LP64.
Qed.

Lemma max_size_value `{Platform} :
  BufferNode.max_size = if LP64 then 4294967295 else 65535.
Proof. unfold BufferNode.max_size. rewrite pow_InternalSizeType_bits. by destruct LP64. Qed.

Lemma element_size_value `{Platform} :
  PtrQueue._element_size = if LP64 then 8 else 4.
Proof. reflexivity. Qed.

Lemma max_size_lt_size_t `{Platform} :
  BufferNode.max_size * PtrQueue._element_size < 2 ^ size_t_bits.
Proof.
  rewrite max_size_value, element_size_value, pow_size_t_bits.
  destruct LP64; lia.
Qed.

Lemma element_size_pos `{Platform} : 0 < PtrQueue._element_size.
Proof. rewrite element_size_value. destruct LP64; lia. Qed.

Lemma buffer_offset_pos `{Platform} : 0 < BufferNode.buffer_offset < 2 ^ size_t_bits.
Proof. rewrite buffer_offset_value, pow_size_t_bits. destruct LP64; lia. Qed.

Lemma InternalSizeType_small `{Platform} (z : Z) :
  0 <= z <= BufferNode.max_size → BufferNode.InternalSizeType z = z.
Proof.
  intros Hz. unfold BufferNode.InternalSizeType. apply Z.mod_small.
  unfold BufferNode.max_size in Hz. lia.
Qed.

Lemma InternalSizeType_range `{Platform} (z : Z) :
  0 <= BufferNode.InternalSizeType z <= BufferNode.max_size.
Proof.
  unfold BufferNode.InternalSizeType, BufferNode.max_size.
  assert (0 < 2 ^ BufferNode.InternalSizeType_bits)
    by (rewrite pow_InternalSizeType_bits; destruct LP64; lia).
  pose proof (Z.mod_pos_bound z (2 ^ BufferNode.InternalSizeType_bits)). lia.
Qed.

Lemma to_size_t_small `{Platform} (z : Z) : is_size_t z → to_size_t z = z.
Proof. intros Hz. by apply Z.mod_small. Qed.

Lemma node_of_buffer_of_node `{Platform} (node : Z) :
  is_size_t node →
  BufferNode.make_node_from_buffer (BufferNode.make_buffer_from_node node) = node.
Proof.
  intros Hn. unfold BufferNode.make_node_from_buffer,
    BufferNode.make_buffer_from_node, to_address.
  rewrite Zminus_mod_idemp_l.
  replace (node + BufferNode.buffer_offset - BufferNode.buffer_offset)
    with node by lia.
  by apply Z.mod_small.
Qed.

Lemma buffer_of_node_of_buffer `{Platform} (buffer : Z) :
  is_size_t buffer →
  BufferNode.make_buffer_from_node (BufferNode.make_node_from_buffer buffer) = buffer.
Proof.
  intros Hb. unfold BufferNode.make_node_from_buffer,
    BufferNode.make_buffer_from_node, to_address.
  rewrite Zplus_mod_idemp_l.
  replace (buffer - BufferNode.buffer_offset + BufferNode.buffer_offset)
    with buffer by lia.
  by apply Z.mod_small.
Qed.

(** ** BufferNode *)

Lemma set_index_inv `{Platform} (n n' : BufferNode.t) (i : Z) :
  BufferNode.set_index n i = Done n' →
  i <= BufferNode.capacity n ∧
  n' = {| BufferNode._index := BufferNode.InternalSizeType i;
          BufferNode._capacity := BufferNode._capacity n;
          BufferNode._next := BufferNode._next n;
          BufferNode._buffer := BufferNode._buffer n |}.
Proof.
  unfold BufferNode.set_index, assert.
  destruct (Z.leb_spec i (BufferNode.capacity n)); simpl; [|done].
  intros [= <-]. done.
Qed.

Lemma set_index_done `{Platform} (n : BufferNode.t) (i : Z) :
  i <= BufferNode.capacity n →
  BufferNode.set_index n i =
  Done {| BufferNode._index := BufferNode.InternalSizeType i;
          BufferNode._capacity := BufferNode._capacity n;
          BufferNode._next := BufferNode._next n;
          BufferNode._buffer := BufferNode._buffer n |}.
Proof.
  intros Hi. unfold BufferNode.set_index, assert.
  destruct (Z.leb_spec i (BufferNode.capacity n)); [done | lia].
Qed.

Lemma set_index_fatal `{Platform} (n : BufferNode.t) (i : Z) :
  BufferNode.capacity n < i →
  BufferNode.set_index n i = Fatal (AssertionFailure "precondition").
Proof.
  intros Hi. unfold BufferNode.set_index, assert.
  destruct (Z.leb_spec i (BufferNode.capacity n)); [lia | done].
Qed.

(** C5.  The mapping between a node and its buffer is a bijection of the
    addresses: going from a node to its buffer and back gives the node,
    going from a buffer to its node and back gives the buffer, and the
    two directions add and subtract the one offset [buffer_offset]. *)
Theorem make_node_from_buffer_bijection `{Platform} (node buffer : Z) :
  is_size_t node → is_size_t buffer →
  BufferNode.make_node_from_buffer (BufferNode.make_buffer_from_node node) = node ∧
  BufferNode.make_buffer_from_node (BufferNode.make_node_from_buffer buffer) = buffer ∧
  BufferNode.make_buffer_from_node node = to_address (node + BufferNode.buffer_offset) ∧
  BufferNode.make_node_from_buffer buffer = to_address (buffer - BufferNode.buffer_offset) ∧
  is_size_t (BufferNode.make_buffer_from_node node) ∧
  is_size_t (BufferNode.make_node_from_buffer buffer).
Proof.
  intros Hn Hb. split_and!.
  - by apply node_of_buffer_of_node.
  - by apply buffer_of_node_of_buffer.
  - reflexivity.
  - reflexivity.
  - apply Z.mod_pos_bound. pose proof buffer_offset_pos. unfold is_size_t in Hn. lia.
  - apply Z.mod_pos_bound. unfold is_size_t in Hn. lia.
Qed.

Lemma make_node_from_buffer_bijection_witness :
  @BufferNode.make_node_from_buffer Scenario.lp64
    (@BufferNode.make_buffer_from_node Scenario.lp64 18446744073709551615)
  = 18446744073709551615 ∧
  @BufferNode.make_buffer_from_node Scenario.lp64
    (@BufferNode.make_node_from_buffer Scenario.lp64 3) = 3.
Proof.
  pose proof (@make_node_from_buffer_bijection Scenario.lp64
                18446744073709551615 3) as Hb.
  split; apply Hb; by vm_compute.
Defined.

(** C9.  [max_size()] is the largest value of [InternalSizeType]: it is
    [2^bits - 1], which is 4294967295 for the 32-bit type of a 64-bit
    platform (and 65535 for the 16-bit type of the others); it is a value
    of the type and no value of the type is larger.  The capacity of
    every node the constructor yields is at most
    [max_size()]. *)
Theorem max_size_bounds_capacity `{Platform} :
  BufferNode.max_size = 2 ^ BufferNode.InternalSizeType_bits - 1 ∧
  @BufferNode.max_size Scenario.lp64 = 2 ^ 32 - 1 ∧
  @BufferNode.max_size Scenario.lp64 = 4294967295 ∧
  @BufferNode.max_size Scenario.ilp32 = 65535 ∧
  BufferNode.InternalSizeType BufferNode.max_size = BufferNode.max_size ∧
  (∀ z, 0 <= BufferNode.InternalSizeType z <= BufferNode.max_size) ∧
  (∀ capacity storage,
     0 <= BufferNode.capacity (BufferNode.BufferNode capacity storage)
       <= BufferNode.max_size).
Proof.
  split_and!; try reflexivity.
  - apply InternalSizeType_small. rewrite max_size_value. destruct LP64; lia.
  - apply InternalSizeType_range.
  - intros capacity storage. apply InternalSizeType_range.
Qed.

(** C3.  [0 <= index <= capacity] holds for the node the constructor
    yields, whose index is its capacity, and every operation on a node
    that has the property leaves a node that has it, with the capacity it
    had: [set_next], [set_index], which accepts [i <= capacity] only, and
    [make_node_from_buffer] with an index, on every node of the heap. *)
Theorem index_within_capacity `{Platform} :
  (∀ capacity storage,
     let n := BufferNode.BufferNode capacity storage in
     BufferNode.wf n ∧ BufferNode.index n = BufferNode.capacity n ∧
     0 <= BufferNode.index n <= BufferNode.capacity n) ∧
  (∀ n o n',
     BufferNode.wf n → 0 <= BufferNode.index n <= BufferNode.capacity n →
     BufferNode.op_typed o → BufferNode.run n o = Done n' →
     BufferNode.wf n' ∧ BufferNode.capacity n' = BufferNode.capacity n ∧
     0 <= BufferNode.index n' <= BufferNode.capacity n') ∧
  (∀ n i, BufferNode.capacity n < i →
     BufferNode.run n (BufferNode.SetIndex i) = Fatal (AssertionFailure "precondition")) ∧
  (∀ (h h' : gmap Z BufferNode.t) buffer i node,
     (∀ k n, h !! k = Some n →
        BufferNode.wf n ∧ 0 <= BufferNode.index n <= BufferNode.capacity n) →
     is_size_t i →
     BufferNode.make_node_from_buffer_index h buffer i = Done (node, h') →
     ∀ k n, h' !! k = Some n →
        BufferNode.wf n ∧ 0 <= BufferNode.index n <= BufferNode.capacity n).
Proof.
  assert (Hstep : ∀ n i n',
     BufferNode.wf n → is_size_t i → BufferNode.set_index n i = Done n' →
     BufferNode.wf n' ∧ BufferNode.capacity n' = BufferNode.capacity n ∧
     0 <= BufferNode.index n' <= BufferNode.capacity n').
  { intros n i n' [Hi Hc] [Hi0 _] [Hle ->]%set_index_inv.
    unfold BufferNode.wf, BufferNode.index, BufferNode.capacity in *. simpl.
    rewrite InternalSizeType_small by lia. lia. }
  split_and!.
  - intros capacity storage. simpl.
    pose proof (InternalSizeType_range capacity).
    unfold BufferNode.wf, BufferNode.index, BufferNode.capacity. simpl. lia.
  - intros n [p | i] n' Hwf Hinv Hty Hrun; simpl in *.
    + injection Hrun as <-. done.
    + by eapply Hstep.
  - intros n i Hi. simpl. by apply set_index_fatal.
  - intros h h' buffer i node Hall Hi Hmk k n Hk.
    unfold BufferNode.make_node_from_buffer_index, BufferNode.deref in Hmk.
    destruct (h !! BufferNode.make_node_from_buffer buffer) as [n0|] eqn:Hn0;
      simpl in Hmk; [|done].
    destruct (BufferNode.set_index n0 i) as [n1|] eqn:Hset; simpl in Hmk; [|done].
    injection Hmk as <- <-.
    destruct (decide (BufferNode.make_node_from_buffer buffer = k)) as [<- | Hne].
    + rewrite lookup_insert_eq in Hk. injection Hk as <-.
      destruct (Hall _ _ Hn0) as [Hwf0 _].
      destruct (Hstep _ _ _ Hwf0 Hi Hset) as (? & ? & ?). done.
    + rewrite lookup_insert_ne in Hk by done. by eapply Hall.
Qed.

Lemma index_within_capacity_witness :
  let n := {| BufferNode._index := 3; BufferNode._capacity := 4;
              BufferNode._next := 0; BufferNode._buffer := [] |} in
  let n' := {| BufferNode._index := 1; BufferNode._capacity := 4;
               BufferNode._next := 0; BufferNode._buffer := [] |} in
  @BufferNode.run Scenario.lp64 n (BufferNode.SetIndex 1) = Done n' ∧
  @BufferNode.wf Scenario.lp64 n' ∧
  BufferNode.capacity n' = BufferNode.capacity n ∧
  0 <= BufferNode.index n' <= BufferNode.capacity n'.
Proof.
  intros n n'. split; [reflexivity|].
  apply (proj1 (proj2 (@index_within_capacity Scenario.lp64)) n
           (BufferNode.SetIndex 1) n'); by vm_compute.
Defined.

(** ** PtrQueue *)

Lemma byte_index_done `{Platform} (i : Z) :
  PtrQueue.byte_index_to_index (i * PtrQueue._element_size) = Done i.
Proof.
  pose proof element_size_pos.
  unfold PtrQueue.byte_index_to_index, PtrQueue.is_aligned, assert.
  rewrite Z.mod_mul by lia. simpl. rewrite Z.div_mul by lia. done.
Qed.

Lemma byte_index_inv `{Platform} (b i : Z) :
  PtrQueue.byte_index_to_index b = Done i → b = i * PtrQueue._element_size.
Proof.
  pose proof element_size_pos.
  unfold PtrQueue.byte_index_to_index, PtrQueue.is_aligned, assert.
  destruct (Z.eqb_spec (b mod PtrQueue._element_size) 0) as [Hm|]; simpl; [|done].
  intros [= <-]. rewrite (Z.div_mod b PtrQueue._element_size) at 1 by lia. lia.
Qed.

Lemma index_to_byte_index_small `{Platform} (i : Z) :
  0 <= i <= BufferNode.max_size →
  PtrQueue.index_to_byte_index i = i * PtrQueue._element_size.
Proof.
  intros Hi. unfold PtrQueue.index_to_byte_index. apply Z.mod_small.
  pose proof max_size_lt_size_t. pose proof element_size_pos. nia.
Qed.

Lemma current_capacity_wf `{Platform} (h : gmap Z BufferNode.t) (q : PtrQueue.t) :
  PtrQueue.wf h q →
  ∃ c, PtrQueue.current_capacity h q = Done c ∧ 0 <= c <= BufferNode.max_size.
Proof.
  intros (_ & _ & Hbuf). unfold PtrQueue.current_capacity.
  destruct (Z.eqb_spec (PtrQueue._buf q) 0) as [|Hne].
  - exists 0. split; [done|]. rewrite max_size_value. destruct LP64; lia.
  - destruct (Hbuf Hne) as (n & Hn & Hwf). unfold BufferNode.deref. rewrite Hn. simpl.
    exists (BufferNode.capacity n). split; [done|]. apply Hwf.
Qed.

Lemma queue_set_index_done `{Platform} (h : gmap Z BufferNode.t) (q : PtrQueue.t) (i c : Z) :
  PtrQueue.current_capacity h q = Done c → i <= c →
  PtrQueue.set_index h q i =
  Done {| PtrQueue._index := PtrQueue.index_to_byte_index i;
          PtrQueue._buf := PtrQueue._buf q |}.
Proof.
  intros Hc Hi. unfold PtrQueue.set_index, assert. rewrite Hc. simpl.
  destruct (Z.leb_spec i c); [done | lia].
Qed.

Lemma queue_set_index_fatal `{Platform} (h : gmap Z BufferNode.t) (q : PtrQueue.t) (i c : Z) :
  PtrQueue.current_capacity h q = Done c → c < i →
  PtrQueue.set_index h q i = Fatal (AssertionFailure "precondition").
Proof.
  intros Hc Hi. unfold PtrQueue.set_index, assert. rewrite Hc. simpl.
  destruct (Z.leb_spec i c); [lia | done].
Qed.

(** C4.  For a node and for a queue whose index does not exceed the
    capacity, [is_empty()] is true exactly when [index()] equals
    [capacity()] ([current_capacity()] for the queue), and [size()] and
    [index()] add up to the capacity. *)
Theorem is_empty_iff_index_capacity `{Platform} :
  (∀ n, BufferNode.wf n → BufferNode.index n <= BufferNode.capacity n →
     (BufferNode.is_empty n = true ↔ BufferNode.index n = BufferNode.capacity n) ∧
     BufferNode.size n + BufferNode.index n = BufferNode.capacity n) ∧
  (∀ (h : gmap Z BufferNode.t) q i c,
     PtrQueue.wf h q → PtrQueue.index q = Done i →
     PtrQueue.current_capacity h q = Done c → i <= c →
     ∃ e s, PtrQueue.is_empty h q = Done e ∧ (e = true ↔ i = c) ∧
            PtrQueue.size h q = Done s ∧ s + i = c).
Proof.
  split.
  - intros n [Hi Hc] Hle. split.
    + unfold BufferNode.is_empty. apply Z.eqb_eq.
    + unfold BufferNode.size, BufferNode.index, BufferNode.capacity in *.
      rewrite to_size_t_small; [lia|].
      pose proof max_size_lt_size_t. pose proof element_size_pos.
      unfold is_size_t. nia.
  - intros h q i c Hwf Hidx Hcap Hle.
    destruct (current_capacity_wf h q Hwf) as (c' & Hc' & Hrange).
    rewrite Hcap in Hc'. injection Hc' as <-.
    pose proof Hidx as Hb%byte_index_inv.
    destruct Hwf as ([Hi0 _] & _).
    pose proof element_size_pos.
    assert (0 <= i) by nia.
    exists (i =? c), (c - i). unfold PtrQueue.is_empty, PtrQueue.size.
    rewrite Hidx, Hcap. simpl. split_and!; [done | apply Z.eqb_eq | | lia].
    rewrite to_size_t_small; [done|].
    pose proof max_size_lt_size_t. unfold is_size_t. nia.
Qed.

Lemma is_empty_iff_index_capacity_witness :
  let n := {| BufferNode._index := 1; BufferNode._capacity := 4;
              BufferNode._next := 0; BufferNode._buffer := [] |} in
  let h := {[ 4096 := n ]} in
  let q := {| PtrQueue._index := 24; PtrQueue._buf := 4112 |} in
  @BufferNode.size Scenario.lp64 n + BufferNode.index n = BufferNode.capacity n ∧
  ∃ e s, @PtrQueue.is_empty Scenario.lp64 h q = Done e ∧ (e = true ↔ 3 = 4) ∧
         @PtrQueue.size Scenario.lp64 h q = Done s ∧ s + 3 = 4.
Proof.
  intros n h q. split.
  - apply (proj1 (@is_empty_iff_index_capacity Scenario.lp64) n); by vm_compute.
  - apply (proj2 (@is_empty_iff_index_capacity Scenario.lp64) h q 3 4).
    + split_and!; [by vm_compute | by vm_compute |].
      intros _. exists n. split; by vm_compute.
    + by vm_compute.
    + by vm_compute.
    + lia.
Defined.

(** C8.  For a node and for a queue, [set_index(i)] with
    [i <= capacity()] ([current_capacity()] for the queue) passes the
    assertion, and [index()] then returns [i] itself; with [i] above the
    capacity the assertion fails. *)
Theorem set_index_then_index `{Platform} :
  (∀ n i, BufferNode.wf n → is_size_t i →
     (i <= BufferNode.capacity n →
      ∃ n', BufferNode.set_index n i = Done n' ∧ BufferNode.index n' = i ∧
            BufferNode.capacity n' = BufferNode.capacity n) ∧
     (BufferNode.capacity n < i →
      BufferNode.set_index n i = Fatal (AssertionFailure "precondition"))) ∧
  (∀ (h : gmap Z BufferNode.t) q i, PtrQueue.wf h q → is_size_t i →
     ∃ c, PtrQueue.current_capacity h q = Done c ∧
       (i <= c →
        ∃ q', PtrQueue.set_index h q i = Done q' ∧ PtrQueue.index q' = Done i ∧
              PtrQueue.buffer q' = PtrQueue.buffer q ∧
              PtrQueue.current_capacity h q' = Done c) ∧
       (c < i →
        PtrQueue.set_index h q i = Fatal (AssertionFailure "precondition"))).
Proof.
  split.
  - intros n i [_ Hc] [Hi0 _]. split.
    + intros Hle. eexists. split; [by apply set_index_done|].
      unfold BufferNode.index, BufferNode.capacity in *. simpl.
      split; [|done]. apply InternalSizeType_small. lia.
    + apply set_index_fatal.
  - intros h q i Hwf [Hi0 _].
    destruct (current_capacity_wf h q Hwf) as (c & Hcap & Hc).
    exists c. split_and!; [done | | by apply queue_set_index_fatal].
    intros Hle. eexists. split; [by eapply queue_set_index_done|].
    unfold PtrQueue.index. simpl.
    rewrite index_to_byte_index_small by lia.
    split_and!; [apply byte_index_done | done | done].
Qed.

Lemma set_index_then_index_witness :
  (∃ n', @BufferNode.set_index Scenario.lp64
           (@BufferNode.BufferNode Scenario.lp64 4 []) 2 = Done n' ∧
         BufferNode.index n' = 2 ∧ BufferNode.capacity n' = 4) ∧
  @BufferNode.set_index Scenario.lp64
    (@BufferNode.BufferNode Scenario.lp64 4 []) 5
  = Fatal (AssertionFailure "precondition") ∧
  ∃ c, @PtrQueue.current_capacity Scenario.lp64
         (PtrQueueSet.heap Scenario.qset1) Scenario.queue1 = Done c ∧
       c = 4 ∧
       (∃ q', @PtrQueue.set_index Scenario.lp64
                (PtrQueueSet.heap Scenario.qset1) Scenario.queue1 3 = Done q' ∧
              @PtrQueue.index Scenario.lp64 q' = Done 3) ∧
       @PtrQueue.set_index Scenario.lp64
         (PtrQueueSet.heap Scenario.qset1) Scenario.queue1 5
       = Fatal (AssertionFailure "precondition").
Proof.
  pose proof (@set_index_then_index Scenario.lp64) as [Hnode Hqueue].
  split_and!.
  - destruct (Hnode (@BufferNode.BufferNode Scenario.lp64 4 []) 2) as [Hok _];
      [by vm_compute | by vm_compute |].
    apply Hok. by vm_compute.
  - destruct (Hnode (@BufferNode.BufferNode Scenario.lp64 4 []) 5) as [_ Hbad];
      [by vm_compute | by vm_compute |].
    apply Hbad. by vm_compute.
  - assert (Hwf : @PtrQueue.wf Scenario.lp64
                    (PtrQueueSet.heap Scenario.qset1) Scenario.queue1).
    { split_and!; [by vm_compute | by vm_compute |].
      intros _. eexists. split; [by vm_compute | by vm_compute]. }
    destruct (Hqueue _ _ 3 Hwf) as (c & Hc & Hok & _); [by vm_compute|].
    destruct (Hqueue _ _ 5 Hwf) as (c' & Hc' & _ & Hbad); [by vm_compute|].
    assert (c = 4) as -> by (vm_compute in Hc; congruence).
    assert (c' = 4) as -> by (vm_compute in Hc'; congruence).
    exists 4. split_and!; [done | done | | apply Hbad; lia].
    destruct Hok as (q' & Hq' & Hi & _); [lia|]. by exists q'.
Defined.

(** ** PtrQueueSet *)

Lemma bound_index `{Platform} (h : gmap Z BufferNode.t) q n i :
  PtrQueue.bound h q n i → PtrQueue.index q = Done i.
Proof.
  intros (_ & _ & _ & _ & _ & Hidx & _). unfold PtrQueue.index.
  rewrite Hidx. apply byte_index_done.
Qed.


(** The node a bound queue writes to when it enqueues [value]. *)
Lemma try_enqueue_bound `{Platform} s q n i value :
  PtrQueue.bound (PtrQueueSet.heap s) q n i → 0 < i →
  let n' := {| BufferNode._index := BufferNode._index n;
               BufferNode._capacity := BufferNode._capacity n;
               BufferNode._next := BufferNode._next n;
               BufferNode._buffer :=
                 <[Z.to_nat (i - 1) := Some value]> (BufferNode._buffer n) |} in
  let h' := <[BufferNode.make_node_from_buffer (PtrQueue._buf q) := n']>
              (PtrQueueSet.heap s) in
  let q' := {| PtrQueue._index := (i - 1) * PtrQueue._element_size;
               PtrQueue._buf := PtrQueue._buf q |} in
  PtrQueueSet.try_enqueue s q value = Done (true, PtrQueueSet.set_heap s h', q') ∧
  PtrQueue.bound h' q' n' (i - 1).
Proof.
  intros Hb Hi n' h' q'.
  pose proof (bound_index _ _ _ _ Hb) as Hidx.
  destruct Hb as (Hbuf & Hbt & Hn & Hwf & Hsz & Hbyte & Hrange).
  assert (Hb' : PtrQueue.bound h' q' n' (i - 1)).
  { unfold PtrQueue.bound, h', q', n'. simpl. rewrite lookup_insert_eq.
    split_and!; try done.
    - unfold BufferNode.sized in *. simpl. by rewrite length_insert.
    - lia.
    - unfold BufferNode.capacity in *. simpl. lia. }
  split; [|done].
  unfold PtrQueueSet.try_enqueue, PtrQueue.buffer.
  destruct (Z.eqb_spec (PtrQueue._buf q) 0); [done|].
  rewrite Hidx. simpl.
  destruct (Z.eqb_spec i 0); [lia|].
  unfold PtrQueueSet.store, BufferNode.deref. rewrite Hn. simpl.
  unfold BufferNode.sized, BufferNode.capacity in *.
  destruct (Z.leb_spec 0 (i - 1)); [|lia].
  destruct (Z.ltb_spec (i - 1) (Z.of_nat (length (BufferNode._buffer n)))); [|lia].
  simpl. fold n'. fold h'.
  assert (Hcap : PtrQueue.current_capacity h' q = Done (BufferNode.capacity n)).
  { unfold PtrQueue.current_capacity, BufferNode.deref, h'.
    destruct (Z.eqb_spec (PtrQueue._buf q) 0); [done|]. by rewrite lookup_insert_eq. }
  rewrite (queue_set_index_done h' q (i - 1) _ Hcap)
    by (unfold BufferNode.capacity; lia).
  simpl. rewrite index_to_byte_index_small; [done|].
  destruct Hwf as [_ ?]. lia.
Qed.

Lemma try_enqueue_refused `{Platform} s q value :
  PtrQueue.buffer q = 0 ∨ PtrQueue.index q = Done 0 →
  PtrQueueSet.try_enqueue s q value = Done (false, s, q).
Proof.
  intros Hq. unfold PtrQueueSet.try_enqueue.
  destruct (Z.eqb_spec (PtrQueue.buffer q) 0) as [|Hne]; [done|].
  destruct Hq as [?| ->]; [done|]. done.
Qed.

(** C1.  [try_enqueue] returns failure and leaves the set, the heap and
    the queue as they were when the queue has no buffer or its index is
    0.  For a queue bound to a node, with a positive index [i], it
    returns success, the index becomes [i - 1], slot [i - 1] of the
    buffer holds the value and the other slots, the other nodes, the
    allocator and the completed buffers are as before.  A bound queue
    gets one of the two answers: a value is stored or refused, never
    dropped. *)
Theorem try_enqueue_stores_or_fails `{Platform} s q value :
  (PtrQueue.buffer q = 0 ∨ PtrQueue.index q = Done 0 →
   PtrQueueSet.try_enqueue s q value = Done (false, s, q)) ∧
  (∀ n i, PtrQueue.bound (PtrQueueSet.heap s) q n i →
     (i = 0 ∧ PtrQueueSet.try_enqueue s q value = Done (false, s, q)) ∨
     (0 < i ∧
      ∃ s' q' n',
        PtrQueueSet.try_enqueue s q value = Done (true, s', q') ∧
        PtrQueue.index q' = Done (i - 1) ∧
        PtrQueue.buffer q' = PtrQueue.buffer q ∧
        PtrQueue.bound (PtrQueueSet.heap s') q' n' (i - 1) ∧
        BufferNode._buffer n' !! Z.to_nat (i - 1) = Some (Some value) ∧
        (∀ j, j ≠ Z.to_nat (i - 1) →
              BufferNode._buffer n' !! j = BufferNode._buffer n !! j) ∧
        (∀ k, k ≠ BufferNode.make_node_from_buffer (PtrQueue.buffer q) →
              PtrQueueSet.heap s' !! k = PtrQueueSet.heap s !! k) ∧
        PtrQueueSet._allocator s' = PtrQueueSet._allocator s ∧
        PtrQueueSet.completed s' = PtrQueueSet.completed s)).
Proof.
  split; [apply try_enqueue_refused|].
  intros n i Hb.
  assert (i = 0 ∨ 0 < i) as [-> | Hi] by (destruct Hb as (_&_&_&_&_&_&?); lia).
  - left. split; [done|]. apply try_enqueue_refused. right. by eapply bound_index.
  - right. split; [done|].
    destruct (try_enqueue_bound s q n i value Hb Hi) as [Hrun Hb'].
    eexists _, _, _. split; [exact Hrun|].
    split_and!; try done.
    + by eapply bound_index.
    + simpl. apply list_lookup_insert_eq.
      destruct Hb as (_&_&_&_&Hsz&_&?). unfold BufferNode.sized, BufferNode.capacity in *. lia.
    + intros j Hj. simpl. by apply list_lookup_insert_ne.
    + intros k Hk. unfold PtrQueueSet.heap at 1. simpl. by apply lookup_insert_ne.
Qed.

Lemma qset1_queue1_bound :
  @PtrQueue.bound Scenario.lp64 (PtrQueueSet.heap Scenario.qset1) Scenario.queue1
    (@BufferNode.BufferNode Scenario.lp64 4 (replicate 4 None)) 4.
Proof. split_and!; by vm_compute. Qed.

Lemma try_enqueue_stores_or_fails_witness :
  @PtrQueueSet.try_enqueue Scenario.lp64 (Scenario.qset 4) PtrQueue.PtrQueue 7
  = Done (false, Scenario.qset 4, PtrQueue.PtrQueue) ∧
  ∃ s' q' n',
    @PtrQueueSet.try_enqueue Scenario.lp64 Scenario.qset1 Scenario.queue1 7
    = Done (true, s', q') ∧
    @PtrQueue.index Scenario.lp64 q' = Done 3 ∧
    BufferNode._buffer n' !! 3%nat = Some (Some 7).
Proof.
  split.
  - apply (proj1 (@try_enqueue_stores_or_fails Scenario.lp64
                    (Scenario.qset 4) PtrQueue.PtrQueue 7)).
    left. reflexivity.
  - destruct (proj2 (@try_enqueue_stores_or_fails Scenario.lp64
                       Scenario.qset1 Scenario.queue1 7) _ _ qset1_queue1_bound)
      as [[Hz _] | [_ (s' & q' & n' & Hrun & Hidx & _ & _ & Hslot & _)]].
    + discriminate Hz.
    + by exists s', q', n'.
Defined.

(** A queue with [k] free slots accepts [k] values and refuses the next
    one. *)
Lemma try_enqueue_all_bound `{Platform} (k : nat) :
  ∀ s q n values,
    PtrQueue.bound (PtrQueueSet.heap s) q n (Z.of_nat k) →
    length values = S k →
    ∃ s' q', PtrQueueSet.try_enqueue_all s q values
             = Done (replicate k true ++ [false], s', q').
Proof.
  induction k as [|k IH]; intros s q n values Hb Hlen.
  - destruct values as [|value [|]]; [done | | done].
    simpl. rewrite try_enqueue_refused; [by eexists _, _|].
    right. by eapply bound_index.
  - destruct values as [|value values]; [done|].
    injection Hlen as Hlen.
    destruct (try_enqueue_bound s q n (Z.of_nat (S k)) value Hb) as [Hrun Hb'];
      [lia|].
    replace (Z.of_nat (S k) - 1) with (Z.of_nat k) in * by lia.
    simpl. rewrite Hrun. simpl.
    destruct (IH (PtrQueueSet.set_heap s _) _ _ values Hb' Hlen) as (s' & q' & Hall).
    rewrite Hall. simpl. by eexists _, _.
Qed.

(** C2.  On a queue that holds an empty buffer of capacity [C] (its index
    is the capacity of its node), a run of [C + 1] calls of [try_enqueue]
    returns success [C] times and then failure, whatever the values. *)
Theorem try_enqueue_capacity_then_full `{Platform} s q n values :
  PtrQueue.bound (PtrQueueSet.heap s) q n (BufferNode.capacity n) →
  length values = S (Z.to_nat (BufferNode.capacity n)) →
  ∃ s' q', PtrQueueSet.try_enqueue_all s q values
           = Done (replicate (Z.to_nat (BufferNode.capacity n)) true ++ [false],
                   s', q').
Proof.
  intros Hb Hlen. eapply try_enqueue_all_bound; [|exact Hlen].
  rewrite Z2Nat.id; [exact Hb|].
  destruct Hb as (_&_&_&_&_&_&?). lia.
Qed.

Lemma try_enqueue_capacity_then_full_witness :
  ∃ s' q', @PtrQueueSet.try_enqueue_all Scenario.lp64 Scenario.qset1 Scenario.queue1
             [10; 20; 30; 40; 50]
           = Done ([true; true; true; true; false], s', q').
Proof.
  apply (@try_enqueue_capacity_then_full Scenario.lp64 Scenario.qset1 Scenario.queue1
           (@BufferNode.BufferNode Scenario.lp64 4 (replicate 4 None))
           [10; 20; 30; 40; 50]).
  - exact qset1_queue1_bound.
  - reflexivity.
Defined.

(** The allocator hands out an empty node of its capacity, which the heap
    holds at an address that is neither null nor near the end of the
    address space; the other nodes stay as they are. *)
Lemma allocate_fresh `{Platform} a m :
  Allocator.consistent a m → Allocator.can_allocate a m →
  ∃ node a' m' storage,
    Allocator.allocate a m = Done (node, a', m') ∧
    Allocator.nodes m' =
      <[node := BufferNode.BufferNode (Allocator.buffer_capacity a) storage]>
        (Allocator.nodes m) ∧
    Z.of_nat (length storage) = Allocator.buffer_capacity a ∧
    0 < node ∧ node + BufferNode.buffer_offset < 2 ^ size_t_bits ∧
    (node = Allocator.top m ∨ node ∈ Allocator._free_list a).
Proof.
  intros (Htop & Hcap & Hnodes & Hfree) Hcan. unfold Allocator.allocate.
  destruct (Allocator._free_list a) as [|node rest] eqn:Hfl.
  - destruct Hcan as [|Hroom]; [done|].
    destruct (Z.ltb_spec (Allocator.top m + Allocator.node_bytes a) (2 ^ size_t_bits));
      [|lia].
    eexists _, _, _, _. split; [done|]. simpl. split_and!; [done | | lia | | by left].
    + rewrite length_replicate. lia.
    + unfold Allocator.node_bytes in *. pose proof element_size_pos as Hes.
      unfold PtrQueue._element_size in Hes. nia.
  - destruct (Hfree node) as [old Hold]; [left|].
    unfold BufferNode.deref. rewrite Hold. simpl.
    destruct (Hnodes _ _ Hold) as (? & ? & ?).
    eexists _, _, _, _. split; [done|]. simpl.
    split_and!; [done | done | lia | lia | right; left].
Qed.

(** The allocator keeps the heap and the free list consistent. *)
Lemma allocate_consistent `{Platform} a m node a' m' :
  Allocator.consistent a m →
  Allocator.allocate a m = Done (node, a', m') →
  Allocator.consistent a' m'.
Proof.
  intros (Htop & Hcap & Hnodes & Hfree). unfold Allocator.allocate.
  pose proof buffer_offset_pos as Hoff. pose proof element_size_pos as Hes.
  unfold PtrQueue._element_size in Hes.
  destruct (Allocator._free_list a) as [|k rest] eqn:Hfl.
  - destruct (Z.ltb_spec (Allocator.top m + Allocator.node_bytes a) (2 ^ size_t_bits));
      [|done].
    intros [= <- <- <-].
    assert (BufferNode.buffer_offset <= Allocator.node_bytes a)
      by (unfold Allocator.node_bytes; nia).
    split; [simpl; lia|]. split; [exact Hcap|]. split; simpl.
    + intros k n. destruct (decide (Allocator.top m = k)) as [<- | Hne].
      * rewrite lookup_insert_eq. intros [= <-]. simpl.
        rewrite length_replicate. lia.
      * rewrite lookup_insert_ne by done. intros Hk.
        destruct (Hnodes _ _ Hk) as (? & ? & ?). lia.
    + rewrite Hfl. intros k Hk. by apply elem_of_nil in Hk.
  - destruct (Hfree k) as [old Hold]; [left|].
    unfold BufferNode.deref. rewrite Hold. simpl. intros [= <- <- <-].
    split; [exact Htop|]. split; [exact Hcap|]. split; simpl.
    + intros k0 n. destruct (decide (k = k0)) as [<- | Hne].
      * rewrite lookup_insert_eq. intros [= <-]. simpl. by eapply Hnodes.
      * rewrite lookup_insert_ne by done. apply Hnodes.
    + intros k0 Hk0. destruct (decide (k = k0)) as [<- | Hne].
      * by rewrite lookup_insert_eq.
      * rewrite lookup_insert_ne by done. apply Hfree. by right.
Qed.

(** [install_new_buffer] leaves the queue bound to an empty node. *)
Lemma install_new_buffer_bound `{Platform} s q :
  Allocator.consistent (PtrQueueSet._allocator s) (PtrQueueSet.mem s) →
  Allocator.can_allocate (PtrQueueSet._allocator s) (PtrQueueSet.mem s) →
  ∃ s' q' n' node,
    PtrQueueSet.install_new_buffer s q = Done (s', q') ∧
    PtrQueue.buffer q' = BufferNode.make_buffer_from_node node ∧
    BufferNode.make_node_from_buffer (PtrQueue.buffer q') = node ∧
    PtrQueueSet.heap s' = <[node := n']> (PtrQueueSet.heap s) ∧
    PtrQueue.bound (PtrQueueSet.heap s') q' n' (BufferNode.capacity n') ∧
    BufferNode.index n' = BufferNode.capacity n' ∧
    BufferNode.capacity n' = PtrQueueSet.buffer_capacity s ∧
    PtrQueueSet.completed s' = PtrQueueSet.completed s ∧
    (node = Allocator.top (PtrQueueSet.mem s) ∨
     node ∈ Allocator._free_list (PtrQueueSet._allocator s)).
Proof.
  intros Hcons Hcan.
  destruct (allocate_fresh _ _ Hcons Hcan)
    as (node & a' & m' & storage & Halloc & Hm' & Hlen & Hpos & Hend & Hfrom).
  destruct Hcons as (_ & Hcap & _).
  pose proof buffer_offset_pos as Hoff.
  assert (Hnode : is_size_t node) by (unfold is_size_t; lia).
  pose proof (node_of_buffer_of_node node Hnode) as Hrt.
  assert (Hbuf : BufferNode.make_buffer_from_node node = node + BufferNode.buffer_offset).
  { unfold BufferNode.make_buffer_from_node, to_address. apply Z.mod_small. lia. }
  set (n' := BufferNode.BufferNode (Allocator.buffer_capacity (PtrQueueSet._allocator s))
               storage) in *.
  assert (Hcn : BufferNode.capacity n'
                = Allocator.buffer_capacity (PtrQueueSet._allocator s)).
  { unfold n', BufferNode.capacity. simpl. by apply InternalSizeType_small. }
  set (q1 := PtrQueue.set_buffer q (BufferNode.make_buffer_from_node node)).
  assert (Hcc : PtrQueue.current_capacity (Allocator.nodes m') q1
                = Done (BufferNode.capacity n')).
  { unfold PtrQueue.current_capacity, q1. simpl.
    destruct (Z.eqb_spec (BufferNode.make_buffer_from_node node) 0); [lia|].
    unfold BufferNode.deref. by rewrite Hrt, Hm', lookup_insert_eq. }
  unfold PtrQueueSet.install_new_buffer. rewrite Halloc. simpl.
  unfold BufferNode.deref. rewrite Hm', lookup_insert_eq. simpl.
  fold q1. rewrite <- Hm'.
  rewrite (queue_set_index_done _ q1 _ _ Hcc)
    by (unfold n', BufferNode.capacity; simpl; lia).
  simpl.
  eexists _, _, n', node. split; [done|].
  unfold PtrQueue.buffer, PtrQueueSet.heap, PtrQueueSet.buffer_capacity. simpl.
  split_and!; try done.
  unfold PtrQueue.bound. simpl. rewrite Hrt, Hm', lookup_insert_eq.
  split_and!; try done.
  - lia.
  - unfold is_size_t. lia.
  - unfold n', BufferNode.wf. simpl.
    pose proof (InternalSizeType_range
                  (Allocator.buffer_capacity (PtrQueueSet._allocator s))). lia.
  - unfold BufferNode.sized. unfold BufferNode.capacity in Hcn. simpl in *. lia.
  - apply index_to_byte_index_small, InternalSizeType_range.
  - unfold BufferNode.capacity in Hcn. simpl in Hcn. lia.
Qed.

Lemma qset_full_queue_full_bound :
  @PtrQueue.bound Scenario.lp64 (PtrQueueSet.heap Examples.qset_full)
    Examples.queue_full Examples.node_full 0.
Proof. split_and!; by vm_compute. Qed.

Lemma qset_full_consistent :
  @Allocator.consistent Scenario.lp64
    (PtrQueueSet._allocator Examples.qset_full) (PtrQueueSet.mem Examples.qset_full).
Proof.
  split_and!; try (by vm_compute).
  - intros k n Hk. simpl in Hk.
    apply lookup_singleton_Some in Hk as [<- <-]. split_and!; by vm_compute.
  - intros k Hk. by apply elem_of_nil in Hk.
Qed.

Lemma consistent_update `{Platform} a m k n n' :
  Allocator.consistent a m →
  Allocator.nodes m !! k = Some n →
  length (BufferNode._buffer n') = length (BufferNode._buffer n) →
  Allocator.consistent a
    {| Allocator.nodes := <[k := n']> (Allocator.nodes m);
       Allocator.top := Allocator.top m |}.
Proof.
  intros (Htop & Hcap & Hnodes & Hfree) Hk Hlen.
  split; [exact Htop|]. split; [exact Hcap|]. split; simpl.
  - intros k0 n0. destruct (decide (k = k0)) as [<- | Hne].
    + rewrite lookup_insert_eq. intros [= <-]. rewrite Hlen. by eapply Hnodes.
    + rewrite lookup_insert_ne by done. apply Hnodes.
  - intros k0 Hk0. destruct (decide (k = k0)) as [<- | Hne].
    + by rewrite lookup_insert_eq.
    + rewrite lookup_insert_ne by done. by apply Hfree.
Qed.

(** The node of a bound queue, once the queue's index is written to it. *)
Lemma make_node_from_buffer_index_bound `{Platform} (h : gmap Z BufferNode.t) q n i :
  PtrQueue.bound h q n i →
  BufferNode.make_node_from_buffer_index h (PtrQueue.buffer q) i =
  Done (BufferNode.make_node_from_buffer (PtrQueue.buffer q),
        <[BufferNode.make_node_from_buffer (PtrQueue.buffer q) :=
            {| BufferNode._index := i;
               BufferNode._capacity := BufferNode._capacity n;
               BufferNode._next := BufferNode._next n;
               BufferNode._buffer := BufferNode._buffer n |}]> h).
Proof.
  intros (_ & _ & Hn & [_ Hc] & _ & _ & Hi).
  unfold BufferNode.make_node_from_buffer_index, BufferNode.deref, PtrQueue.buffer.
  rewrite Hn. simpl. rewrite set_index_done by lia. simpl.
  rewrite InternalSizeType_small; [done|]. unfold BufferNode.capacity in Hi. lia.
Qed.

(** C7, amended.  On a set whose allocator can hand out a node,
    [exchange_buffer_with_new] leaves the queue bound to an empty node
    (the node's index is its capacity, and so is the queue's); it returns
    null for a queue without a buffer, and for a bound queue the node the
    queue had, with its capacity, link and slots unchanged and its index
    set to the queue's index, whatever index the node held before.  With
    capacity 4, after the values 1, 2, 3, 4 a fifth [try_enqueue] fails,
    the node returned has index 0 and size 4, and the queue's new buffer
    has index 4 of capacity 4. *)
Theorem exchange_buffer_with_new_returns_old `{Platform} s q :
  Allocator.consistent (PtrQueueSet._allocator s) (PtrQueueSet.mem s) →
  Allocator.can_allocate (PtrQueueSet._allocator s) (PtrQueueSet.mem s) →
  (PtrQueue.buffer q = 0 →
   ∃ s' q' n',
     PtrQueueSet.exchange_buffer_with_new s q = Done (0, s', q') ∧
     PtrQueue.bound (PtrQueueSet.heap s') q' n' (BufferNode.capacity n') ∧
     BufferNode.index n' = BufferNode.capacity n' ∧
     BufferNode.capacity n' = PtrQueueSet.buffer_capacity s) ∧
  (∀ n i,
     PtrQueue.bound (PtrQueueSet.heap s) q n i →
     BufferNode.make_node_from_buffer (PtrQueue.buffer q)
       ∉ Allocator._free_list (PtrQueueSet._allocator s) →
     ∃ s' q' n',
       PtrQueueSet.exchange_buffer_with_new s q
       = Done (BufferNode.make_node_from_buffer (PtrQueue.buffer q), s', q') ∧
       PtrQueueSet.heap s' !! BufferNode.make_node_from_buffer (PtrQueue.buffer q)
       = Some {| BufferNode._index := i;
                 BufferNode._capacity := BufferNode._capacity n;
                 BufferNode._next := BufferNode._next n;
                 BufferNode._buffer := BufferNode._buffer n |} ∧
       PtrQueue.buffer q' ≠ PtrQueue.buffer q ∧
       PtrQueue.bound (PtrQueueSet.heap s') q' n' (BufferNode.capacity n') ∧
       BufferNode.index n' = BufferNode.capacity n' ∧
       BufferNode.capacity n' = PtrQueueSet.buffer_capacity s) ∧
  Scenario.capacity4
  = Done ([true; true; true; true], false,
          (0, 4, 4, [Some 4; Some 3; Some 2; Some 1]),
          (4, 4, 0, [None; None; None; None]), 4).
Proof.
  intros Hcons Hcan. split_and!; [| |by vm_compute].
  - intros Hnull.
    destruct (install_new_buffer_bound s q Hcons Hcan)
      as (s' & q' & n' & node & Hrun & _ & _ & _ & Hb & Hidx & Hcap & _).
    unfold PtrQueueSet.exchange_buffer_with_new.
    rewrite Hnull. simpl. rewrite Hrun. simpl. by eexists _, _, _.
  - intros n i Hb Hnotfree.
    set (old := BufferNode.make_node_from_buffer (PtrQueue.buffer q)) in *.
    set (n1 := {| BufferNode._index := i;
                  BufferNode._capacity := BufferNode._capacity n;
                  BufferNode._next := BufferNode._next n;
                  BufferNode._buffer := BufferNode._buffer n |}).
    set (s1 := PtrQueueSet.set_heap s (<[old := n1]> (PtrQueueSet.heap s))).
    pose proof Hb as (Hbuf & Hbt & Hn & _).
    change (BufferNode.make_node_from_buffer (PtrQueue._buf q)) with old in Hn.
    assert (Hcons1 :
      Allocator.consistent (PtrQueueSet._allocator s1) (PtrQueueSet.mem s1)).
    { eapply (consistent_update _ _ old n n1 Hcons); [exact Hn | done]. }
    destruct (install_new_buffer_bound s1 q Hcons1 Hcan)
      as (s' & q' & n' & node & Hrun & Hq' & Hrt & Hheap & Hb' & Hidx & Hcap & _ & Hfrom).
    assert (Hne : node ≠ old).
    { destruct Hcons as (_ & _ & Hnodes & _).
      destruct (Hnodes _ _ Hn) as (Hpos & Hbelow & _). pose proof buffer_offset_pos.
      destruct Hfrom as [-> | Hin]; [unfold s1; simpl; lia|].
      intros ->. by apply Hnotfree. }
    unfold PtrQueueSet.exchange_buffer_with_new.
    destruct (Z.eqb_spec (PtrQueue.buffer q) 0); [done|].
    rewrite (bound_index _ _ _ _ Hb). simpl.
    rewrite (make_node_from_buffer_index_bound _ _ _ _ Hb). simpl.
    fold old. fold n1. fold s1. rewrite Hrun. simpl.
    eexists _, _, _. split; [done|]. split_and!; try done.
    + rewrite Hheap, lookup_insert_ne by done.
      unfold s1, PtrQueueSet.heap. simpl. by rewrite lookup_insert_eq.
    + intros Heq. apply Hne. rewrite <- Hrt, Heq. done.
Qed.

Lemma qset1_consistent :
  @Allocator.consistent Scenario.lp64
    (PtrQueueSet._allocator Scenario.qset1) (PtrQueueSet.mem Scenario.qset1).
Proof.
  split_and!; try (by vm_compute).
  - intros k n Hk. simpl in Hk.
    apply lookup_singleton_Some in Hk as [<- <-]. split_and!; by vm_compute.
  - intros k Hk. by apply elem_of_nil in Hk.
Qed.

Lemma exchange_buffer_with_new_returns_old_witness :
  ∃ s' q' n',
    @PtrQueueSet.exchange_buffer_with_new Scenario.lp64
      Examples.qset_full Examples.queue_full
    = Done (4096, s', q') ∧
    PtrQueueSet.heap s' !! 4096
    = Some {| BufferNode._index := 0; BufferNode._capacity := 4;
              BufferNode._next := 0;
              BufferNode._buffer := [Some 4; Some 3; Some 2; Some 1] |} ∧
    BufferNode.index n' = BufferNode.capacity n' ∧
    @PtrQueue.bound Scenario.lp64 (PtrQueueSet.heap s') q' n' (BufferNode.capacity n').
Proof.
  destruct (@exchange_buffer_with_new_returns_old Scenario.lp64
              Examples.qset_full Examples.queue_full) as (_ & Hbound & _).
  - exact qset_full_consistent.
  - right. by vm_compute.
  - destruct (Hbound _ _ qset_full_queue_full_bound)
      as (s' & q' & n' & Hrun & Hold & _ & Hb & Hidx & _).
    + intros Hin. by apply elem_of_nil in Hin.
    + by exists s', q', n'.
Defined.

(** Against C7 as stated: the node returned is not the node as it was.
    After the values 1, 2, 3, 4 the node of the queue still holds the
    index 4 it was made with (size 0); the exchange returns it with the
    queue's index 0 (size 4). *)
Lemma exchange_buffer_with_new_writes_index :
  Examples.full
  = Done ([true; true; true; true], Examples.qset_full, Examples.queue_full) ∧
  PtrQueueSet.heap Examples.qset_full !! 4096 = Some Examples.node_full ∧
  BufferNode.index Examples.node_full = 4 ∧
  @BufferNode.size Scenario.lp64 Examples.node_full = 0 ∧
  ∃ s' q' n',
    @PtrQueueSet.exchange_buffer_with_new Scenario.lp64
      Examples.qset_full Examples.queue_full
    = Done (4096, s', q') ∧
    PtrQueueSet.heap s' !! 4096 = Some n' ∧
    n' ≠ Examples.node_full ∧
    BufferNode.index n' = 0 ∧ @BufferNode.size Scenario.lp64 n' = 4.
Proof.
  split; [vm_compute; reflexivity|]. split; [vm_compute; reflexivity|].
  split; [reflexivity|]. split; [vm_compute; reflexivity|].
  remember (@PtrQueueSet.exchange_buffer_with_new Scenario.lp64
              Examples.qset_full Examples.queue_full) as r eqn:Hr.
  vm_compute in Hr. subst r.
  eexists _, _, {| BufferNode._index := 0; BufferNode._capacity := 4;
                   BufferNode._next := 0;
                   BufferNode._buffer := [Some 4; Some 3; Some 2; Some 1] |}.
  split; [reflexivity|].
  split; [vm_compute; reflexivity|]. split; [discriminate|].
  split; [reflexivity | vm_compute; reflexivity].
Qed.





(** ** CPUTimeCounters *)

Lemma to_jlong_small (z : Z) : - 2 ^ 63 <= z < 2 ^ 63 → to_jlong z = z.
Proof. intros Hz. unfold to_jlong. rewrite Z.mod_small; lia. Qed.

Lemma to_jlong_range (z : Z) : - 2 ^ 63 <= to_jlong z < 2 ^ 63.
Proof. unfold to_jlong. pose proof (Z.mod_pos_bound (z + 2 ^ 63) (2 ^ 64)). lia. Qed.

Lemma to_jlong_add_l (a b : Z) : to_jlong (to_jlong a + b) = to_jlong (a + b).
Proof.
  unfold to_jlong. f_equal.
  replace ((a + 2 ^ 63) mod 2 ^ 64 - 2 ^ 63 + b + 2 ^ 63)
    with ((a + 2 ^ 63) mod 2 ^ 64 + b) by lia.
  rewrite Zplus_mod_idemp_l. f_equal. lia.
Qed.

Lemma to_jlong_add_r (a b : Z) : to_jlong (a + to_jlong b) = to_jlong (a + b).
Proof. rewrite Z.add_comm, to_jlong_add_l. f_equal. lia. Qed.

Lemma inc_all_counters s diffs :
  CPUTimeCounters._cpu_time_counters (CPUTimeCounters.inc_all s diffs)
  = CPUTimeCounters._cpu_time_counters s.
Proof.
  revert s. induction diffs as [|d diffs IH]; intros s; [done|].
  unfold CPUTimeCounters.inc_all in *. simpl. by rewrite IH.
Qed.

Lemma inc_all_diff s diffs :
  to_jlong (CPUTimeCounters._gc_total_cpu_time_diff s)
  = CPUTimeCounters._gc_total_cpu_time_diff s →
  CPUTimeCounters._gc_total_cpu_time_diff (CPUTimeCounters.inc_all s diffs)
  = to_jlong (CPUTimeCounters._gc_total_cpu_time_diff s + CPUTimeCounters.sum diffs).
Proof.
  revert s. induction diffs as [|d diffs IH]; intros s Hs.
  - simpl. by rewrite Z.add_0_r.
  - unfold CPUTimeCounters.inc_all in *. simpl. rewrite IH.
    + simpl. rewrite to_jlong_add_l. f_equal. lia.
    + simpl. rewrite to_jlong_small; [done|]. apply to_jlong_range.
Qed.

(** One turn of the loop ends it when no other thread interferes. *)
Lemma publish_loop_sequential fuel s :
  CPUTimeCounters.publish_loop (S fuel) s (CPUTimeCounters.Atomic_load s)
  = Some (CPUTimeCounters._gc_total_cpu_time_diff s,
          {| CPUTimeCounters._cpu_time_counters := CPUTimeCounters._cpu_time_counters s;
             CPUTimeCounters._gc_total_cpu_time_diff := 0 |}).
Proof.
  unfold CPUTimeCounters.Atomic_load. simpl.
  by rewrite Z.eqb_refl.
Qed.

(** A publish when no other thread interferes: the accumulated value
    goes to the counter and is cleared. *)
Lemma publish_sequential fuel s c :
  CPUTimeCounters.get_counter s CPUTimeGroups.gc_total = Some c →
  CPUTimeCounters.publish_gc_total_cpu_time (S fuel) s
  = Some (Done
      {| CPUTimeCounters._cpu_time_counters := λ k,
           if decide (k = CPUTimeGroups.gc_total)
           then Some (to_jlong (c + CPUTimeCounters._gc_total_cpu_time_diff s))
           else CPUTimeCounters._cpu_time_counters s k;
         CPUTimeCounters._gc_total_cpu_time_diff := 0 |}).
Proof.
  intros Hc. unfold CPUTimeCounters.get_counter in Hc.
  unfold CPUTimeCounters.publish_gc_total_cpu_time.
  rewrite publish_loop_sequential.
  unfold CPUTimeCounters.PerfCounter_inc. simpl. by rewrite Hc.
Qed.

(** C10.  With no other thread at work, after a publish (or the
    constructor) has left [_gc_total_cpu_time_diff] at zero, a run of
    [inc_gc_total_cpu_time] calls followed by
    [publish_gc_total_cpu_time] ends (one turn of its loop is enough),
    adds the sum of the amounts to the [gc_total] counter, in [jlong]
    arithmetic and so the sum itself while the counter stays in the range
    of [jlong], touches no other counter, and leaves
    [_gc_total_cpu_time_diff] at zero; a second publish then adds
    nothing. *)
Theorem publish_gc_total_cpu_time_adds_sum (fuel : nat) s c diffs :
  CPUTimeCounters._gc_total_cpu_time_diff s = 0 →
  CPUTimeCounters.get_counter s CPUTimeGroups.gc_total = Some c →
  ∃ s',
    CPUTimeCounters.publish_gc_total_cpu_time (S fuel) (CPUTimeCounters.inc_all s diffs)
    = Some (Done s') ∧
    CPUTimeCounters._gc_total_cpu_time_diff s' = 0 ∧
    CPUTimeCounters.get_counter s' CPUTimeGroups.gc_total
    = Some (to_jlong (c + CPUTimeCounters.sum diffs)) ∧
    (- 2 ^ 63 <= c + CPUTimeCounters.sum diffs < 2 ^ 63 →
     CPUTimeCounters.get_counter s' CPUTimeGroups.gc_total
     = Some (c + CPUTimeCounters.sum diffs)) ∧
    (∀ name, name ≠ CPUTimeGroups.gc_total →
       CPUTimeCounters.get_counter s' name = CPUTimeCounters.get_counter s name) ∧
    ∃ s'',
      CPUTimeCounters.publish_gc_total_cpu_time (S fuel) s' = Some (Done s'') ∧
      CPUTimeCounters._gc_total_cpu_time_diff s'' = 0 ∧
      CPUTimeCounters.get_counter s'' CPUTimeGroups.gc_total
      = CPUTimeCounters.get_counter s' CPUTimeGroups.gc_total.
Proof.
  intros Hdiff Hc.
  assert (Hc' : CPUTimeCounters.get_counter (CPUTimeCounters.inc_all s diffs)
                  CPUTimeGroups.gc_total = Some c).
  { unfold CPUTimeCounters.get_counter. by rewrite inc_all_counters. }
  rewrite (publish_sequential fuel _ c Hc').
  rewrite inc_all_counters, inc_all_diff by (by rewrite Hdiff).
  rewrite Hdiff, Z.add_0_l, to_jlong_add_r.
  eexists. split; [done|].
  split_and!; [done | done | | |].
  - intros Hrange. unfold CPUTimeCounters.get_counter. simpl.
    by rewrite to_jlong_small.
  - intros name Hname. unfold CPUTimeCounters.get_counter. simpl.
    by rewrite decide_False.
  - erewrite publish_sequential by reflexivity.
    eexists. split; [done|]. split; [done|].
    unfold CPUTimeCounters.get_counter. simpl.
    rewrite Z.add_0_r, to_jlong_small; [done|]. apply to_jlong_range.
Qed.

Lemma publish_gc_total_cpu_time_adds_sum_witness :
  ∃ s',
    CPUTimeCounters.publish_gc_total_cpu_time 1
      (CPUTimeCounters.inc_all (@CPUTimeCounters.CPUTimeCounters Scenario.runtime)
         [5; 7; 30])
    = Some (Done s') ∧
    CPUTimeCounters._gc_total_cpu_time_diff s' = 0 ∧
    CPUTimeCounters.get_counter s' CPUTimeGroups.gc_total = Some 42.
Proof.
  destruct (publish_gc_total_cpu_time_adds_sum 0
              (@CPUTimeCounters.CPUTimeCounters Scenario.runtime) 0 [5; 7; 30])
    as (s' & Hrun & Hdiff & _ & Hexact & _).
  - reflexivity.
  - reflexivity.
  - exists s'. split_and!; [done | done |]. apply Hexact. by vm_compute.
Defined.


(** * Further properties *)

(** ** PtrQueue: byte and slot indices *)

Lemma size_t_multiple_of_element `{Platform} :
  2 ^ size_t_bits = PtrQueue._element_size * (2 ^ size_t_bits / PtrQueue._element_size) ∧
  0 < 2 ^ size_t_bits / PtrQueue._element_size.
Proof.
  rewrite pow_size_t_bits, element_size_value. by destruct LP64.
Qed.

Lemma index_to_byte_index_aligned `{Platform} (i : Z) :
  PtrQueue.index_to_byte_index i mod PtrQueue._element_size = 0.
Proof.
  unfold PtrQueue.index_to_byte_index, to_size_t.
  destruct size_t_multiple_of_element as [Hm _]. pose proof element_size_pos.
  rewrite Z.mod_mod_divide.
  - apply Z.mod_mul. lia.
  - exists (2 ^ size_t_bits / PtrQueue._element_size). lia.
Qed.

(** X1.  Slot and byte indices convert into each other without loss:
    a slot index whose byte index fits [size_t] comes back from
    [index_to_byte_index] and [byte_index_to_index], and an aligned byte
    index comes back the other way.  A byte index that is not a multiple
    of the element size fails the assertion.  The bound is sharp: the
    first slot index whose byte index does not fit comes back as 0. *)
Theorem byte_index_round_trip `{Platform} :
  (∀ i, 0 <= i → i * PtrQueue._element_size < 2 ^ size_t_bits →
     PtrQueue.byte_index_to_index (PtrQueue.index_to_byte_index i) = Done i) ∧
  (∀ b i, is_size_t b → PtrQueue.byte_index_to_index b = Done i →
     PtrQueue.index_to_byte_index i = b) ∧
  (∀ b, b mod PtrQueue._element_size ≠ 0 →
     PtrQueue.byte_index_to_index b = Fatal (AssertionFailure "precondition")) ∧
  PtrQueue.byte_index_to_index
    (PtrQueue.index_to_byte_index (2 ^ size_t_bits / PtrQueue._element_size))
  = Done 0.
Proof.
  pose proof element_size_pos as Hes.
  split_and!.
  - intros i Hi Hfit. unfold PtrQueue.index_to_byte_index.
    rewrite to_size_t_small by (unfold is_size_t; nia).
    apply byte_index_done.
  - intros b i Hb Hidx. apply byte_index_inv in Hidx. subst b.
    unfold PtrQueue.index_to_byte_index. by apply to_size_t_small.
  - intros b Hb. unfold PtrQueue.byte_index_to_index, PtrQueue.is_aligned, assert.
    by destruct (Z.eqb_spec (b mod PtrQueue._element_size) 0).
  - destruct size_t_multiple_of_element as [Hm _].
    unfold PtrQueue.index_to_byte_index, to_size_t.
    rewrite Z.mul_comm, <- Hm, Z.mod_same
      by (rewrite pow_size_t_bits; destruct LP64; lia).
    apply (byte_index_done 0).
Qed.

Lemma byte_index_round_trip_witness :
  @PtrQueue.byte_index_to_index Scenario.lp64
    (@PtrQueue.index_to_byte_index Scenario.lp64 5) = Done 5 ∧
  @PtrQueue.index_to_byte_index Scenario.lp64 3 = 24 ∧
  @PtrQueue.byte_index_to_index Scenario.lp64 13
  = Fatal (AssertionFailure "precondition").
Proof.
  pose proof (@byte_index_round_trip Scenario.lp64) as (Hslot & Hbyte & Hbad & _).
  split_and!.
  - apply Hslot; by vm_compute.
  - apply (Hbyte 24 3); by vm_compute.
  - apply Hbad. by vm_compute.
Defined.

(** X2.  [set_index] leaves [_index] pointer-size aligned and within
    [size_t] whatever index it is given, so the [index()] that follows
    never fails its alignment assertion; the buffer is as before. *)
Theorem set_index_keeps_alignment `{Platform} (h : gmap Z BufferNode.t) q i q' :
  PtrQueue.set_index h q i = Done q' →
  PtrQueue.is_aligned (PtrQueue._index q') PtrQueue._element_size = true ∧
  is_size_t (PtrQueue._index q') ∧
  (∃ j, PtrQueue.index q' = Done j ∧
        PtrQueue._index q' = j * PtrQueue._element_size) ∧
  PtrQueue.buffer q' = PtrQueue.buffer q.
Proof.
  unfold PtrQueue.set_index.
  destruct (PtrQueue.current_capacity h q) as [c|]; simpl; [|done].
  unfold assert. destruct (i <=? c); simpl; [|done].
  intros [= <-]. simpl. pose proof (index_to_byte_index_aligned i) as Ha.
  pose proof element_size_pos as Hes.
  split_and!.
  - unfold PtrQueue.is_aligned. by apply Z.eqb_eq.
  - apply Z.mod_pos_bound. rewrite pow_size_t_bits. destruct LP64; lia.
  - exists (PtrQueue.index_to_byte_index i / PtrQueue._element_size).
    assert (Hb : PtrQueue.index_to_byte_index i
                 = PtrQueue.index_to_byte_index i / PtrQueue._element_size
                   * PtrQueue._element_size).
    { rewrite (Z.div_mod (PtrQueue.index_to_byte_index i) PtrQueue._element_size)
        at 1 by lia. lia. }
    split; [|exact Hb]. unfold PtrQueue.index. simpl.
    rewrite Hb at 1. apply byte_index_done.
  - done.
Qed.

Lemma set_index_keeps_alignment_witness :
  let q' := {| PtrQueue._index := 16; PtrQueue._buf := 4112 |} in
  @PtrQueue.is_aligned (PtrQueue._index q') (@PtrQueue._element_size Scenario.lp64) = true ∧
  @is_size_t Scenario.lp64 (PtrQueue._index q') ∧
  (∃ j, @PtrQueue.index Scenario.lp64 q' = Done j ∧
        PtrQueue._index q' = j * @PtrQueue._element_size Scenario.lp64) ∧
  PtrQueue.buffer q' = PtrQueue.buffer Scenario.queue1.
Proof.
  intros q'.
  apply (@set_index_keeps_alignment Scenario.lp64
           (PtrQueueSet.heap Scenario.qset1) Scenario.queue1 2 q').
  by vm_compute.
Defined.

Lemma byte_index_zero `{Platform} : PtrQueue.byte_index_to_index 0 = Done 0.
Proof. apply (byte_index_done 0). Qed.

(** X3.  A queue without a buffer has capacity 0 on any heap: its
    [set_index] accepts 0 and fails the assertion for every larger index,
    and with index 0 it is empty and of size 0.  The queue the constructor
    yields is of this kind. *)
Theorem queue_without_buffer `{Platform} (h : gmap Z BufferNode.t) q :
  PtrQueue.buffer q = 0 →
  PtrQueue.current_capacity h q = Done 0 ∧
  PtrQueue.set_index h q 0 = Done {| PtrQueue._index := 0; PtrQueue._buf := 0 |} ∧
  (∀ i, 0 < i →
     PtrQueue.set_index h q i = Fatal (AssertionFailure "precondition")) ∧
  (PtrQueue._index q = 0 →
     PtrQueue.is_empty h q = Done true ∧ PtrQueue.size h q = Done 0) ∧
  PtrQueue.is_empty h PtrQueue.PtrQueue = Done true.
Proof.
  unfold PtrQueue.buffer. intros Hbuf.
  assert (Hcap : PtrQueue.current_capacity h q = Done 0)
    by (unfold PtrQueue.current_capacity; by rewrite Hbuf).
  assert (Hzero : to_size_t 0 = 0).
  { apply to_size_t_small. unfold is_size_t. rewrite pow_size_t_bits.
    destruct LP64; lia. }
  assert (Hbyte : PtrQueue.index_to_byte_index 0 = 0)
    by (unfold PtrQueue.index_to_byte_index; by rewrite Z.mul_0_l).
  split_and!.
  - done.
  - rewrite (queue_set_index_done h q 0 0 Hcap) by lia.
    by rewrite Hbyte, Hbuf.
  - intros i Hi. by apply (queue_set_index_fatal h q i 0).
  - intros Hidx. unfold PtrQueue.is_empty, PtrQueue.size, PtrQueue.index.
    rewrite Hcap, Hidx.
    replace (PtrQueue.byte_index_to_index 0) with (Done (A := Z) 0)
      by (symmetry; apply byte_index_zero).
    simpl. by rewrite Z.sub_diag, Hzero.
  - unfold PtrQueue.is_empty, PtrQueue.index, PtrQueue.current_capacity. simpl.
    replace (PtrQueue.byte_index_to_index 0) with (Done (A := Z) 0)
      by (symmetry; apply byte_index_zero).
    done.
Qed.

Lemma queue_without_buffer_witness :
  @PtrQueue.current_capacity Scenario.lp64 Examples.heap3 PtrQueue.PtrQueue = Done 0 ∧
  @PtrQueue.set_index Scenario.lp64 Examples.heap3 PtrQueue.PtrQueue 1
  = Fatal (AssertionFailure "precondition") ∧
  @PtrQueue.size Scenario.lp64 Examples.heap3 PtrQueue.PtrQueue = Done 0.
Proof.
  destruct (@queue_without_buffer Scenario.lp64 Examples.heap3 PtrQueue.PtrQueue)
    as (Hcap & _ & Hbad & Hempty & _); [reflexivity|].
  split_and!; [done | apply Hbad; lia | by apply Hempty].
Defined.

(** ** BufferNode *)

(** X4.  [size()] of a node with [index <= capacity] is
    [capacity - index], between 0 and the capacity; it is 0 exactly for an
    empty node and the capacity exactly for a full one (index 0).  With
    [index > capacity] the unsigned subtraction wraps around: the size is
    [2^N - (index - capacity)], above the capacity, and the node is not
    empty. *)
Theorem size_by_index `{Platform} (n : BufferNode.t) :
  BufferNode.wf n →
  (BufferNode.index n <= BufferNode.capacity n →
     BufferNode.size n = BufferNode.capacity n - BufferNode.index n ∧
     0 <= BufferNode.size n <= BufferNode.capacity n ∧
     (BufferNode.size n = 0 ↔ BufferNode.is_empty n = true) ∧
     (BufferNode.size n = BufferNode.capacity n ↔ BufferNode.index n = 0)) ∧
  (BufferNode.capacity n < BufferNode.index n →
     BufferNode.size n
     = 2 ^ size_t_bits - (BufferNode.index n - BufferNode.capacity n) ∧
     BufferNode.capacity n < BufferNode.size n ∧
     BufferNode.is_empty n = false).
Proof.
  intros [Hi Hc]. unfold BufferNode.size, BufferNode.is_empty,
    BufferNode.index, BufferNode.capacity, to_size_t.
  assert (Hmax : BufferNode.max_size < 2 ^ size_t_bits).
  { rewrite max_size_value, pow_size_t_bits. destruct LP64; lia. }
  split.
  - intros Hle.
    rewrite Z.mod_small by lia.
    split_and!; [done | lia | lia | | lia].
    rewrite Z.eqb_eq. lia.
  - intros Hlt.
    assert (Hwrap : (BufferNode._capacity n - BufferNode._index n) mod 2 ^ size_t_bits
                    = 2 ^ size_t_bits
                      - (BufferNode._index n - BufferNode._capacity n)).
    { symmetry. apply Z.mod_unique_pos with (q := -1); lia. }
    rewrite Hwrap. split_and!; [done | lia |].
    apply Z.eqb_neq. lia.
Qed.

Lemma size_by_index_witness :
  @BufferNode.size Scenario.lp64 Examples.node3 = 3 ∧
  @BufferNode.size Scenario.lp64
    {| BufferNode._index := 5; BufferNode._capacity := 4;
       BufferNode._next := 0; BufferNode._buffer := [] |}
  = 18446744073709551615.
Proof.
  split.
  - destruct (@size_by_index Scenario.lp64 Examples.node3) as [Hin _];
      [by vm_compute|].
    destruct Hin as [-> _]; by vm_compute.
  - destruct (@size_by_index Scenario.lp64
                {| BufferNode._index := 5; BufferNode._capacity := 4;
                   BufferNode._next := 0; BufferNode._buffer := [] |})
      as [_ Hout]; [by vm_compute|].
    destruct Hout as [-> _]; by vm_compute.
Defined.

(** X5.  [set_index] writes the index and nothing else: capacity, link
    and slots stay, the last of two writes wins, writing [index()] back
    changes nothing, and [set_next] before or after makes no
    difference. *)
Theorem set_index_writes_index_only `{Platform} (n : BufferNode.t) i j p :
  BufferNode.wf n →
  0 <= i <= BufferNode.capacity n → 0 <= j <= BufferNode.capacity n →
  (∃ n', BufferNode.set_index n i = Done n' ∧
         BufferNode.index n' = i ∧
         BufferNode.capacity n' = BufferNode.capacity n ∧
         BufferNode.next n' = BufferNode.next n ∧
         BufferNode._buffer n' = BufferNode._buffer n ∧
         BufferNode.wf n') ∧
  (BufferNode.set_index n i ≫= λ n', BufferNode.set_index n' j)
  = BufferNode.set_index n j ∧
  (BufferNode.index n <= BufferNode.capacity n →
   BufferNode.set_index n (BufferNode.index n) = Done n) ∧
  BufferNode.set_index (BufferNode.set_next n p) i
  = (BufferNode.set_index n i ≫= λ n', mret (BufferNode.set_next n' p)).
Proof.
  intros [Hi Hc] Hri Hrj. unfold BufferNode.capacity, BufferNode.index in *.
  assert (Hii : BufferNode.InternalSizeType i = i)
    by (apply InternalSizeType_small; lia).
  split_and!.
  - eexists. split; [apply set_index_done; unfold BufferNode.capacity; lia|].
    unfold BufferNode.wf, BufferNode.index, BufferNode.capacity, BufferNode.next.
    simpl. rewrite Hii. split_and!; try done; lia.
  - rewrite (set_index_done n i) by (unfold BufferNode.capacity; lia). simpl.
    rewrite !set_index_done by (unfold BufferNode.capacity; simpl; lia). done.
  - intros Hle. rewrite set_index_done by (unfold BufferNode.capacity; lia).
    rewrite InternalSizeType_small by lia. by destruct n.
  - rewrite !set_index_done by (unfold BufferNode.capacity; simpl; lia). done.
Qed.

Lemma set_index_writes_index_only_witness :
  (@BufferNode.set_index Scenario.lp64 Examples.node3 2
     ≫= λ n', @BufferNode.set_index Scenario.lp64 n' 4)
  = @BufferNode.set_index Scenario.lp64 Examples.node3 4 ∧
  @BufferNode.set_index Scenario.lp64 Examples.node3 1 = Done Examples.node3.
Proof.
  destruct (@set_index_writes_index_only Scenario.lp64 Examples.node3 2 4 0)
    as (_ & Htwice & Hback & _);
    [by vm_compute | by vm_compute | by vm_compute |].
  split; [exact Htwice | apply Hback; by vm_compute].
Defined.

(** X6.  [make_node_from_buffer] with an index returns the node in front
    of the buffer and writes that node's index only: the node keeps its
    capacity, link and slots, every other node of the heap stays, and no
    node appears or disappears.  An index above the capacity fails the
    assertion instead of being stored. *)
Theorem make_node_from_buffer_sets_index_only `{Platform}
    (h : gmap Z BufferNode.t) buffer i n :
  h !! BufferNode.make_node_from_buffer buffer = Some n →
  BufferNode.wf n → 0 <= i →
  (i <= BufferNode.capacity n →
   ∃ h',
     BufferNode.make_node_from_buffer_index h buffer i
     = Done (BufferNode.make_node_from_buffer buffer, h') ∧
     h' !! BufferNode.make_node_from_buffer buffer
     = Some {| BufferNode._index := i;
               BufferNode._capacity := BufferNode._capacity n;
               BufferNode._next := BufferNode._next n;
               BufferNode._buffer := BufferNode._buffer n |} ∧
     (∀ k, k ≠ BufferNode.make_node_from_buffer buffer → h' !! k = h !! k) ∧
     dom h' = dom h) ∧
  (BufferNode.capacity n < i →
   BufferNode.make_node_from_buffer_index h buffer i
   = Fatal (AssertionFailure "precondition")).
Proof.
  intros Hn [_ Hc] Hi.
  unfold BufferNode.make_node_from_buffer_index, BufferNode.deref. rewrite Hn. simpl.
  split.
  - intros Hle. rewrite set_index_done by done. simpl.
    rewrite InternalSizeType_small by (unfold BufferNode.capacity in Hle; lia).
    eexists. split; [done|]. split_and!.
    + by rewrite lookup_insert_eq.
    + intros k Hk. by rewrite lookup_insert_ne.
    + apply set_eq. intros k. rewrite !elem_of_dom.
      destruct (decide (BufferNode.make_node_from_buffer buffer = k)) as [<- | Hne].
      * rewrite lookup_insert_eq, Hn. split; intros _; by eexists.
      * by rewrite lookup_insert_ne.
  - intros Hlt. by rewrite set_index_fatal.
Qed.

Lemma make_node_from_buffer_sets_index_only_witness :
  (∃ h',
     @BufferNode.make_node_from_buffer_index Scenario.lp64 Examples.heap3 4112 3
     = Done (4096, h') ∧
     h' !! 4096 = Some {| BufferNode._index := 3; BufferNode._capacity := 4;
                          BufferNode._next := 0;
                          BufferNode._buffer := [None; Some 7; Some 8; Some 9] |}) ∧
  @BufferNode.make_node_from_buffer_index Scenario.lp64 Examples.heap3 4112 5
  = Fatal (AssertionFailure "precondition").
Proof.
  split.
  - destruct (@make_node_from_buffer_sets_index_only Scenario.lp64
                Examples.heap3 4112 3 Examples.node3) as [Hok _];
      [by vm_compute | by vm_compute | lia |].
    destruct Hok as (h' & Hrun & Hnode & _); [by vm_compute|].
    by exists h'.
  - destruct (@make_node_from_buffer_sets_index_only Scenario.lp64
                Examples.heap3 4112 5 Examples.node3) as [_ Hbad];
      [by vm_compute | by vm_compute | lia |].
    apply Hbad. by vm_compute.
Defined.

(** X7.  Going from a node of the heap to its buffer and back with an
    index within the capacity yields that node, at its own address,
    holding the index. *)
Theorem node_from_own_buffer_with_index `{Platform}
    (h : gmap Z BufferNode.t) node n i :
  is_size_t node → h !! node = Some n → BufferNode.wf n →
  0 <= i <= BufferNode.capacity n →
  BufferNode.make_node_from_buffer_index h (BufferNode.make_buffer_from_node node) i
  = Done (node,
          <[node := {| BufferNode._index := i;
                       BufferNode._capacity := BufferNode._capacity n;
                       BufferNode._next := BufferNode._next n;
                       BufferNode._buffer := BufferNode._buffer n |}]> h).
Proof.
  intros Hnode Hn [_ Hc] Hi.
  unfold BufferNode.make_node_from_buffer_index, BufferNode.deref.
  rewrite node_of_buffer_of_node by done. rewrite Hn. simpl.
  rewrite set_index_done by lia. simpl.
  rewrite InternalSizeType_small; [done|]. unfold BufferNode.capacity in Hi. lia.
Qed.

Lemma node_from_own_buffer_with_index_witness :
  @BufferNode.make_node_from_buffer_index Scenario.lp64 Examples.heap3
    (@BufferNode.make_buffer_from_node Scenario.lp64 4096) 0
  = Done (4096,
          <[4096 := {| BufferNode._index := 0; BufferNode._capacity := 4;
                       BufferNode._next := 0;
                       BufferNode._buffer := [None; Some 7; Some 8; Some 9] |}]>
            Examples.heap3).
Proof.
  apply (@node_from_own_buffer_with_index Scenario.lp64 Examples.heap3 4096
           Examples.node3 0); by vm_compute.
Defined.

(** X8.  The buffer starts 16 bytes (8 on a 32-bit platform) after the
    node: a multiple of the pointer size that leaves room for the two
    index fields and the link.  So the buffer of a node is pointer-size
    aligned exactly when the node is, it never is the node's own address,
    and two nodes have one buffer only if they are one node. *)
Theorem buffer_offset_layout `{Platform} :
  BufferNode.buffer_offset = (if LP64 then 16 else 8) ∧
  BufferNode.buffer_offset mod sizeof_pointer = 0 ∧
  2 * BufferNode.sizeof_InternalSizeType + sizeof_pointer <= BufferNode.buffer_offset ∧
  (∀ node, is_size_t node →
     (PtrQueue.is_aligned (BufferNode.make_buffer_from_node node) sizeof_pointer
      = PtrQueue.is_aligned node sizeof_pointer) ∧
     BufferNode.make_buffer_from_node node ≠ node) ∧
  (∀ node node', is_size_t node → is_size_t node' →
     BufferNode.make_buffer_from_node node = BufferNode.make_buffer_from_node node' →
     node = node').
Proof.
  split_and!.
  - apply buffer_offset_value.
  - rewrite buffer_offset_value. unfold sizeof_pointer. by destruct LP64.
  - rewrite buffer_offset_value.
    unfold BufferNode.sizeof_InternalSizeType, sizeof_pointer. destruct LP64; lia.
  - intros node Hnode.
    unfold BufferNode.make_buffer_from_node, to_address, PtrQueue.is_aligned.
    pose proof buffer_offset_pos as Hoff. unfold is_size_t in Hnode. split.
    + f_equal. rewrite Z.mod_mod_divide.
      * rewrite buffer_offset_value. unfold sizeof_pointer.
        destruct LP64.
        -- replace (node + 16) with (node + 2 * 8) by lia. apply Z.mod_add. lia.
        -- replace (node + 8) with (node + 2 * 4) by lia. apply Z.mod_add. lia.
      * destruct size_t_multiple_of_element as [Hm _].
        exists (2 ^ size_t_bits / PtrQueue._element_size).
        rewrite Hm at 1. unfold PtrQueue._element_size. lia.
    + destruct (Z.lt_ge_cases (node + BufferNode.buffer_offset) (2 ^ size_t_bits)).
      * rewrite Z.mod_small by lia. lia.
      * rewrite <- (Z.mod_unique_pos _ _ 1
                      (node + BufferNode.buffer_offset - 2 ^ size_t_bits)); lia.
  - intros node node' Hnode Hnode' Heq.
    rewrite <- (node_of_buffer_of_node node), <- (node_of_buffer_of_node node') by done.
    by rewrite Heq.
Qed.

Lemma buffer_offset_layout_witness :
  @PtrQueue.is_aligned (@BufferNode.make_buffer_from_node Scenario.lp64 4096)
    (@sizeof_pointer Scenario.lp64)
  = @PtrQueue.is_aligned 4096 (@sizeof_pointer Scenario.lp64) ∧
  @BufferNode.make_buffer_from_node Scenario.lp64 18446744073709551608
  ≠ 18446744073709551608.
Proof.
  pose proof (@buffer_offset_layout Scenario.lp64) as (_ & _ & _ & Hnode & _).
  split.
  - apply Hnode. by vm_compute.
  - apply Hnode. by vm_compute.
Defined.

(** X9.  The [static_assert] holds on both platforms:
    [InternalSizeType] is no wider than [size_t].  So [index()] and
    [capacity()] hand out the stored values unchanged, [max_size()] is a
    [size_t], and the byte index of any slot index up to [max_size()]
    still fits [size_t]. *)
Theorem InternalSizeType_fits_size_t `{Platform} :
  BufferNode.sizeof_InternalSizeType <= sizeof_pointer ∧
  BufferNode.InternalSizeType_bits <= size_t_bits ∧
  is_size_t BufferNode.max_size ∧
  (∀ z, to_size_t (BufferNode.InternalSizeType z) = BufferNode.InternalSizeType z) ∧
  (∀ i, 0 <= i <= BufferNode.max_size →
     PtrQueue.index_to_byte_index i = i * PtrQueue._element_size ∧
     is_size_t (i * PtrQueue._element_size)).
Proof.
  assert (Hmax : BufferNode.max_size < 2 ^ size_t_bits).
  { rewrite max_size_value, pow_size_t_bits. destruct LP64; lia. }
  assert (Hmax0 : 0 <= BufferNode.max_size).
  { rewrite max_size_value. destruct LP64; lia. }
  split_and!.
  - unfold BufferNode.sizeof_InternalSizeType, sizeof_pointer. destruct LP64; lia.
  - unfold BufferNode.InternalSizeType_bits, size_t_bits. destruct LP64; lia.
  - done.
  - intros z. apply to_size_t_small. pose proof (InternalSizeType_range z).
    unfold is_size_t. lia.
  - intros i Hi. split; [by apply index_to_byte_index_small|].
    pose proof max_size_lt_size_t. pose proof element_size_pos.
    unfold is_size_t. nia.
Qed.

Lemma InternalSizeType_fits_size_t_witness :
  @PtrQueue.index_to_byte_index Scenario.lp64 4294967295 = 34359738360 ∧
  @PtrQueue.index_to_byte_index Scenario.ilp32 65535 = 262140.
Proof.
  pose proof (@InternalSizeType_fits_size_t Scenario.lp64) as (_ & _ & _ & _ & H64).
  pose proof (@InternalSizeType_fits_size_t Scenario.ilp32) as (_ & _ & _ & _ & H32).
  split.
  - destruct (H64 4294967295) as [-> _]; by vm_compute.
  - destruct (H32 65535) as [-> _]; by vm_compute.
Defined.

(** ** CPUTimeGroups and CPUTimeCounters *)

(** Equations and bounds of [jlong] arithmetic. *)
Ltac jlong :=
  unfold to_jlong in *;
  change (2 ^ 64) with 18446744073709551616 in *;
  change (2 ^ 63) with 9223372036854775808 in *;
  Z.div_mod_to_equations; lia.

Lemma inc_all_app s ds ds' :
  CPUTimeCounters.inc_all s (ds ++ ds')
  = CPUTimeCounters.inc_all (CPUTimeCounters.inc_all s ds) ds'.
Proof. unfold CPUTimeCounters.inc_all. apply foldl_app. Qed.

Lemma sum_app ds ds' :
  CPUTimeCounters.sum (ds ++ ds') = CPUTimeCounters.sum ds + CPUTimeCounters.sum ds'.
Proof.
  unfold CPUTimeCounters.sum. induction ds as [|d ds IH]; simpl; [done|].
  rewrite IH. lia.
Qed.

Lemma inc_all_diff_mod s diffs :
  to_jlong (CPUTimeCounters._gc_total_cpu_time_diff (CPUTimeCounters.inc_all s diffs))
  = to_jlong (CPUTimeCounters._gc_total_cpu_time_diff s + CPUTimeCounters.sum diffs).
Proof.
  revert s. induction diffs as [|d diffs IH]; intros s.
  - simpl. by rewrite Z.add_0_r.
  - unfold CPUTimeCounters.inc_all in *. simpl. rewrite IH. simpl.
    rewrite to_jlong_add_l. f_equal. lia.
Qed.

(** X10.  [to_string] gives every group a name of its own: two groups
    with one name are one group. *)
Theorem to_string_injective (val val' : CPUTimeGroups.CPUTimeType) :
  CPUTimeGroups.to_string val = CPUTimeGroups.to_string val' → val = val'.
Proof. destruct val, val'; simpl; intros Heq; done. Qed.

Lemma to_string_injective_witness :
  CPUTimeGroups.gc_total = CPUTimeGroups.gc_total.
Proof.
  apply (to_string_injective CPUTimeGroups.gc_total CPUTimeGroups.gc_total).
  reflexivity.
Defined.

(** X11.  The constructor leaves the accumulated difference at zero and
    the counters of all groups but [gc_total] null; [gc_total] has its
    counter, the one [PerfDataManager::create_counter] hands out for the
    [SUN_THREADS] name space and the name "total_gc_cpu_time", exactly
    when [UsePerfData] is set and the platform supports thread CPU
    time. *)
Theorem constructor_creates_gc_total_only `{CPUTimeCounters.Runtime} :
  CPUTimeCounters._gc_total_cpu_time_diff CPUTimeCounters.CPUTimeCounters = 0 ∧
  (∀ name, name ≠ CPUTimeGroups.gc_total →
     CPUTimeCounters.get_counter CPUTimeCounters.CPUTimeCounters name = None) ∧
  CPUTimeCounters.get_counter CPUTimeCounters.CPUTimeCounters CPUTimeGroups.gc_total
  = (if CPUTimeCounters.UsePerfData && CPUTimeCounters.is_thread_cpu_time_supported
     then Some (CPUTimeCounters.PerfDataManager_create_counter
                  CPUTimeCounters.SUN_THREADS "total_gc_cpu_time")
     else None).
Proof.
  unfold CPUTimeCounters.CPUTimeCounters, CPUTimeCounters.create_counter,
    CPUTimeCounters.get_counter.
  destruct CPUTimeCounters.UsePerfData, CPUTimeCounters.is_thread_cpu_time_supported;
    simpl; split_and!; try done.
  intros name Hname. by rewrite decide_False.
Qed.

Lemma constructor_creates_gc_total_only_witness :
  CPUTimeCounters.get_counter (@CPUTimeCounters.CPUTimeCounters Scenario.runtime)
    CPUTimeGroups.vm = None ∧
  CPUTimeCounters.get_counter
    (@CPUTimeCounters.CPUTimeCounters Scenario.runtime_without_perf_data)
    CPUTimeGroups.gc_total = None.
Proof.
  split.
  - apply (proj1 (proj2 (@constructor_creates_gc_total_only Scenario.runtime))).
    discriminate.
  - apply (proj2 (proj2
      (@constructor_creates_gc_total_only Scenario.runtime_without_perf_data))).
Defined.

(** X12.  With [UsePerfData] set on a platform with thread CPU time,
    [create_counter] makes [get_counter] answer with the new counter for
    that group and as before for every other group, and leaves the
    accumulated difference; the second [create_counter] does so in the
    [SUN_THREADS_CPUTIME] name space.  Without [UsePerfData], or without
    thread CPU time, the instance stays as it is. *)
Theorem create_counter_then_get_counter `{CPUTimeCounters.Runtime} s ns name :
  (CPUTimeCounters.UsePerfData = true →
   CPUTimeCounters.is_thread_cpu_time_supported = true →
   CPUTimeCounters.get_counter (CPUTimeCounters.create_counter s ns name) name
   = Some (CPUTimeCounters.PerfDataManager_create_counter ns
             (CPUTimeGroups.to_string name)) ∧
   (∀ other, other ≠ name →
      CPUTimeCounters.get_counter (CPUTimeCounters.create_counter s ns name) other
      = CPUTimeCounters.get_counter s other) ∧
   CPUTimeCounters._gc_total_cpu_time_diff (CPUTimeCounters.create_counter s ns name)
   = CPUTimeCounters._gc_total_cpu_time_diff s ∧
   CPUTimeCounters.get_counter (create_counter_group s name) name
   = Some (CPUTimeCounters.PerfDataManager_create_counter
             CPUTimeCounters.SUN_THREADS_CPUTIME (CPUTimeGroups.to_string name))) ∧
  (CPUTimeCounters.UsePerfData = false ∨
   CPUTimeCounters.is_thread_cpu_time_supported = false →
   CPUTimeCounters.create_counter s ns name = s ∧ create_counter_group s name = s).
Proof.
  unfold create_counter_group, CPUTimeCounters.create_counter,
    CPUTimeCounters.get_counter.
  split.
  - intros -> ->. simpl. rewrite !decide_True by done. split_and!; try done.
    intros other Hother. by rewrite decide_False.
  - intros [-> | ->]; [done|]. by destruct CPUTimeCounters.UsePerfData.
Qed.

Lemma create_counter_then_get_counter_witness :
  CPUTimeCounters.get_counter
    (@create_counter_group Scenario.runtime
       (@CPUTimeCounters.CPUTimeCounters Scenario.runtime) CPUTimeGroups.vm)
    CPUTimeGroups.vm = Some 0 ∧
  @create_counter_group Scenario.runtime_without_perf_data
    (@CPUTimeCounters.CPUTimeCounters Scenario.runtime_without_perf_data)
    CPUTimeGroups.vm
  = @CPUTimeCounters.CPUTimeCounters Scenario.runtime_without_perf_data.
Proof.
  split.
  - apply (proj1 (@create_counter_then_get_counter Scenario.runtime
                    (@CPUTimeCounters.CPUTimeCounters Scenario.runtime)
                    CPUTimeCounters.SUN_THREADS_CPUTIME CPUTimeGroups.vm));
      reflexivity.
  - apply (proj2 (@create_counter_then_get_counter Scenario.runtime_without_perf_data
                    (@CPUTimeCounters.CPUTimeCounters Scenario.runtime_without_perf_data)
                    CPUTimeCounters.SUN_THREADS_CPUTIME CPUTimeGroups.vm)).
    left. reflexivity.
Defined.

(** X13.  [publish_gc_total_cpu_time] needs the counter of [gc_total]:
    on an instance whose entry is null, as the constructor leaves it
    without [UsePerfData], the loop ends and the increment then goes
    through the null pointer. *)
Theorem publish_without_counter (fuel : nat) s :
  CPUTimeCounters.get_counter s CPUTimeGroups.gc_total = None →
  CPUTimeCounters.publish_gc_total_cpu_time (S fuel) s = Some (Fatal InvalidAccess).
Proof.
  unfold CPUTimeCounters.get_counter. intros Hnone.
  unfold CPUTimeCounters.publish_gc_total_cpu_time.
  rewrite publish_loop_sequential.
  unfold CPUTimeCounters.PerfCounter_inc. simpl. by rewrite Hnone.
Qed.

Lemma publish_without_counter_witness :
  CPUTimeCounters.publish_gc_total_cpu_time 1
    (CPUTimeCounters.inc_gc_total_cpu_time
       (@CPUTimeCounters.CPUTimeCounters Scenario.runtime_without_perf_data) 5)
  = Some (Fatal InvalidAccess).
Proof. apply (publish_without_counter 0). reflexivity. Defined.

(** X14.  The amounts given to [inc_gc_total_cpu_time] may come in any
    order: two runs over the same amounts leave the same instance.  The
    accumulated difference is, as a [jlong], what it was plus the sum of
    the amounts, it stays in the range of [jlong], and no counter is
    touched. *)
Theorem inc_gc_total_cpu_time_any_order s diffs diffs' :
  diffs ≡ₚ diffs' →
  CPUTimeCounters.inc_all s diffs = CPUTimeCounters.inc_all s diffs' ∧
  to_jlong (CPUTimeCounters._gc_total_cpu_time_diff (CPUTimeCounters.inc_all s diffs))
  = to_jlong (CPUTimeCounters._gc_total_cpu_time_diff s + CPUTimeCounters.sum diffs) ∧
  (diffs ≠ [] →
   - 2 ^ 63 <= CPUTimeCounters._gc_total_cpu_time_diff (CPUTimeCounters.inc_all s diffs)
     < 2 ^ 63) ∧
  CPUTimeCounters._cpu_time_counters (CPUTimeCounters.inc_all s diffs)
  = CPUTimeCounters._cpu_time_counters s.
Proof.
  intros Hperm. split_and!.
  - revert s. induction Hperm as [|d ds ds' _ IH|d d' ds|ds ds' ds'' _ IH _ IH'];
      intros s.
    + done.
    + unfold CPUTimeCounters.inc_all in *. simpl. apply IH.
    + unfold CPUTimeCounters.inc_all. simpl. f_equal.
      unfold CPUTimeCounters.inc_gc_total_cpu_time, CPUTimeCounters.Atomic_add.
      simpl. f_equal. rewrite !to_jlong_add_l. f_equal. lia.
    + by rewrite IH.
  - apply inc_all_diff_mod.
  - intros Hne. destruct (exists_last Hne) as (ds & d & ->).
    rewrite inc_all_app. simpl. apply to_jlong_range.
  - apply inc_all_counters.
Qed.

Lemma inc_gc_total_cpu_time_any_order_witness :
  CPUTimeCounters.inc_all (@CPUTimeCounters.CPUTimeCounters Scenario.runtime) [1; 2; 3]
  = CPUTimeCounters.inc_all (@CPUTimeCounters.CPUTimeCounters Scenario.runtime) [2; 1; 3].
Proof.
  apply (inc_gc_total_cpu_time_any_order
           (@CPUTimeCounters.CPUTimeCounters Scenario.runtime) [1; 2; 3] [2; 1; 3]).
  apply perm_swap.
Defined.

(** ** ThreadTotalCPUTimeClosure *)

Lemma do_threads_range `{CPUTimeCounters.Runtime} (thread_cpu_time : Z → Z) threads :
  ∀ c c',
    - 2 ^ 63 <= ThreadTotalCPUTimeClosure._gc_total c < 2 ^ 63 →
    ThreadTotalCPUTimeClosure.do_threads thread_cpu_time c threads = Done c' →
    - 2 ^ 63 <= ThreadTotalCPUTimeClosure._gc_total c' < 2 ^ 63.
Proof.
  induction threads as [|thread threads IH]; intros c c' Hc; simpl.
  - by intros [= <-].
  - unfold ThreadTotalCPUTimeClosure.do_thread at 1, assert.
    destruct CPUTimeCounters.is_thread_cpu_time_supported; simpl; [|done].
    apply IH. simpl. apply to_jlong_range.
Qed.

(** X15.  On a platform with thread CPU time, a run of [do_thread] over a
    list of threads leaves the closure with its group and, as a [jlong],
    the total it had plus the CPU time of the threads.  Without thread
    CPU time, [do_thread] fails its assertion. *)
Theorem do_thread_accumulates `{CPUTimeCounters.Runtime}
    (thread_cpu_time : Z → Z) c threads :
  (CPUTimeCounters.is_thread_cpu_time_supported = true →
   ∃ c', ThreadTotalCPUTimeClosure.do_threads thread_cpu_time c threads = Done c' ∧
         ThreadTotalCPUTimeClosure._name c' = ThreadTotalCPUTimeClosure._name c ∧
         to_jlong (ThreadTotalCPUTimeClosure._gc_total c')
         = to_jlong (ThreadTotalCPUTimeClosure._gc_total c
                     + ThreadTotalCPUTimeClosure.total_cpu_time thread_cpu_time threads) ∧
         (threads ≠ [] →
          ThreadTotalCPUTimeClosure._gc_total c'
          = to_jlong (ThreadTotalCPUTimeClosure._gc_total c
                      + ThreadTotalCPUTimeClosure.total_cpu_time thread_cpu_time threads))) ∧
  (CPUTimeCounters.is_thread_cpu_time_supported = false →
   ∀ thread,
     ThreadTotalCPUTimeClosure.do_thread thread_cpu_time c thread
     = Fatal (AssertionFailure "os must support cpu time")).
Proof.
  split.
  - intros Hsup. revert c. induction threads as [|thread threads IH]; intros c.
    + exists c. simpl. unfold ThreadTotalCPUTimeClosure.total_cpu_time. simpl.
      rewrite Z.add_0_r. done.
    + simpl. unfold ThreadTotalCPUTimeClosure.do_thread at 1, assert.
      rewrite Hsup. simpl.
      destruct (IH {| ThreadTotalCPUTimeClosure._gc_total :=
                        to_jlong (ThreadTotalCPUTimeClosure._gc_total c
                                  + thread_cpu_time thread);
                      ThreadTotalCPUTimeClosure._name :=
                        ThreadTotalCPUTimeClosure._name c |})
        as (c' & Hrun & Hname & Hmod & Hexact).
      exists c'. split; [exact Hrun|]. split; [exact Hname|].
      unfold ThreadTotalCPUTimeClosure.total_cpu_time in *. simpl in *.
      assert (Heq : to_jlong (ThreadTotalCPUTimeClosure._gc_total c')
                    = to_jlong (ThreadTotalCPUTimeClosure._gc_total c
                        + (thread_cpu_time thread
                           + CPUTimeCounters.sum (thread_cpu_time <$> threads)))).
      { rewrite Hmod, to_jlong_add_l. f_equal. lia. }
      split; [exact Heq|]. intros _.
      etransitivity; [|exact Heq]. symmetry. apply to_jlong_small.
      eapply do_threads_range; [|exact Hrun]. simpl. apply to_jlong_range.
  - intros Hsup thread. unfold ThreadTotalCPUTimeClosure.do_thread, assert.
    by rewrite Hsup.
Qed.

Lemma do_thread_accumulates_witness :
  (∃ c', Examples.workers = Done c' ∧
         ThreadTotalCPUTimeClosure._gc_total c' = 60) ∧
  @ThreadTotalCPUTimeClosure.do_thread
    {| CPUTimeCounters.UsePerfData := true;
       CPUTimeCounters.is_thread_cpu_time_supported := false;
       CPUTimeCounters.PerfDataManager_create_counter := λ _ _, 0 |}
    Examples.thread_cpu_time
    {| ThreadTotalCPUTimeClosure._gc_total := 0;
       ThreadTotalCPUTimeClosure._name := CPUTimeGroups.vm |} 1
  = Fatal (AssertionFailure "os must support cpu time").
Proof.
  split.
  - destruct (proj1 (@do_thread_accumulates Scenario.runtime Examples.thread_cpu_time
                {| ThreadTotalCPUTimeClosure._gc_total := 0;
                   ThreadTotalCPUTimeClosure._name := CPUTimeGroups.gc_parallel_workers |}
                [1; 2; 3])) as (c' & Hrun & _ & _ & Hexact); [reflexivity|].
    exists c'. split; [exact Hrun|]. rewrite Hexact by done. by vm_compute.
  - apply (proj2 (@do_thread_accumulates _ Examples.thread_cpu_time _ [])).
    reflexivity.
Defined.

(** The state the destructor leaves when its counter exists. *)
Lemma destructor_done s c v :
  CPUTimeCounters.get_counter s (ThreadTotalCPUTimeClosure._name c) = Some v →
  ThreadTotalCPUTimeClosure.destructor s c
  = Done
      (let net := to_jlong (ThreadTotalCPUTimeClosure._gc_total c - v) in
       let s1 :=
         {| CPUTimeCounters._cpu_time_counters := λ k,
              if decide (k = ThreadTotalCPUTimeClosure._name c)
              then Some (to_jlong (v + net))
              else CPUTimeCounters._cpu_time_counters s k;
            CPUTimeCounters._gc_total_cpu_time_diff :=
              CPUTimeCounters._gc_total_cpu_time_diff s |} in
       if CPUTimeGroups.is_gc_counter (ThreadTotalCPUTimeClosure._name c)
       then CPUTimeCounters.inc_gc_total_cpu_time s1 net
       else s1).
Proof.
  intros Hv. unfold ThreadTotalCPUTimeClosure.destructor, PerfCounter.get_value.
  rewrite Hv. simpl. unfold CPUTimeCounters.PerfCounter_inc.
  unfold CPUTimeCounters.get_counter in Hv. rewrite Hv. simpl.
  by destruct (CPUTimeGroups.is_gc_counter (ThreadTotalCPUTimeClosure._name c)).
Qed.

Lemma destructor_inv s c s' :
  ThreadTotalCPUTimeClosure.destructor s c = Done s' →
  ∃ v, CPUTimeCounters.get_counter s (ThreadTotalCPUTimeClosure._name c) = Some v.
Proof.
  unfold ThreadTotalCPUTimeClosure.destructor, PerfCounter.get_value.
  destruct (CPUTimeCounters.get_counter s (ThreadTotalCPUTimeClosure._name c)) as [v|];
    [by exists v | done].
Qed.

(** X16.  The destructor brings the counter of the closure's group to
    the closure's total (as a [jlong]) and leaves the counters of the
    other groups.  For a group that [is_gc_counter] accepts it adds the
    net change of the counter to the accumulated difference, for any
    other group it leaves the difference.  A group without a counter
    makes the destructor go through a null pointer. *)
Theorem destructor_publishes_total s c :
  (∀ v, CPUTimeCounters.get_counter s (ThreadTotalCPUTimeClosure._name c) = Some v →
     ∃ s', ThreadTotalCPUTimeClosure.destructor s c = Done s' ∧
       CPUTimeCounters.get_counter s' (ThreadTotalCPUTimeClosure._name c)
       = Some (to_jlong (ThreadTotalCPUTimeClosure._gc_total c)) ∧
       (∀ other, other ≠ ThreadTotalCPUTimeClosure._name c →
          CPUTimeCounters.get_counter s' other = CPUTimeCounters.get_counter s other) ∧
       CPUTimeCounters._gc_total_cpu_time_diff s'
       = (if CPUTimeGroups.is_gc_counter (ThreadTotalCPUTimeClosure._name c)
          then to_jlong (CPUTimeCounters._gc_total_cpu_time_diff s
                         + to_jlong (ThreadTotalCPUTimeClosure._gc_total c - v))
          else CPUTimeCounters._gc_total_cpu_time_diff s)) ∧
  (CPUTimeCounters.get_counter s (ThreadTotalCPUTimeClosure._name c) = None →
   ThreadTotalCPUTimeClosure.destructor s c = Fatal InvalidAccess).
Proof.
  split.
  - intros v Hv. rewrite (destructor_done s c v Hv). eexists. split; [done|].
    unfold CPUTimeCounters.get_counter. simpl.
    destruct (CPUTimeGroups.is_gc_counter (ThreadTotalCPUTimeClosure._name c)); simpl.
    + rewrite decide_True by done. split_and!; [|by intros; rewrite decide_False|done].
      f_equal. jlong.
    + rewrite decide_True by done. split_and!; [|by intros; rewrite decide_False|done].
      f_equal. jlong.
  - intros Hnone. unfold ThreadTotalCPUTimeClosure.destructor, PerfCounter.get_value.
    by rewrite Hnone.
Qed.

Lemma destructor_publishes_total_witness :
  (∃ s', ThreadTotalCPUTimeClosure.destructor Examples.counters
           {| ThreadTotalCPUTimeClosure._gc_total := 60;
              ThreadTotalCPUTimeClosure._name := CPUTimeGroups.gc_parallel_workers |}
         = Done s' ∧
         CPUTimeCounters.get_counter s' CPUTimeGroups.gc_parallel_workers = Some 60 ∧
         CPUTimeCounters._gc_total_cpu_time_diff s' = 60) ∧
  ThreadTotalCPUTimeClosure.destructor
    (@CPUTimeCounters.CPUTimeCounters Scenario.runtime)
    {| ThreadTotalCPUTimeClosure._gc_total := 60;
       ThreadTotalCPUTimeClosure._name := CPUTimeGroups.vm |}
  = Fatal InvalidAccess.
Proof.
  split.
  - destruct (proj1 (destructor_publishes_total Examples.counters
                {| ThreadTotalCPUTimeClosure._gc_total := 60;
                   ThreadTotalCPUTimeClosure._name := CPUTimeGroups.gc_parallel_workers |})
                0) as (s' & Hrun & Hcounter & _ & Hdiff); [reflexivity|].
    exists s'. split_and!; [exact Hrun | exact Hcounter | exact Hdiff].
  - apply (proj2 (destructor_publishes_total _ _)). reflexivity.
Defined.

(** X17.  A closure destroyed a second time with the same total adds
    nothing: every counter keeps the value the first run gave it, and so
    does the accumulated difference when it is a [jlong]. *)
Theorem destructor_twice s c s' :
  ThreadTotalCPUTimeClosure.destructor s c = Done s' →
  ∃ s'', ThreadTotalCPUTimeClosure.destructor s' c = Done s'' ∧
    (∀ name, CPUTimeCounters.get_counter s'' name = CPUTimeCounters.get_counter s' name) ∧
    to_jlong (CPUTimeCounters._gc_total_cpu_time_diff s'')
    = to_jlong (CPUTimeCounters._gc_total_cpu_time_diff s') ∧
    (- 2 ^ 63 <= CPUTimeCounters._gc_total_cpu_time_diff s < 2 ^ 63 →
     CPUTimeCounters._gc_total_cpu_time_diff s''
     = CPUTimeCounters._gc_total_cpu_time_diff s').
Proof.
  intros Hrun. destruct (destructor_inv _ _ _ Hrun) as [v Hv].
  rewrite (destructor_done s c v Hv) in Hrun. injection Hrun as <-.
  set (T := ThreadTotalCPUTimeClosure._gc_total c).
  set (name := ThreadTotalCPUTimeClosure._name c).
  set (v' := to_jlong (v + to_jlong (T - v))).
  eexists. split.
  { apply (destructor_done _ c v'). unfold CPUTimeCounters.get_counter.
    fold name. destruct (CPUTimeGroups.is_gc_counter name); simpl;
      by rewrite decide_True. }
  fold T name. unfold CPUTimeCounters.get_counter.
  assert (Hnet : to_jlong (T - v') = 0) by (unfold v'; jlong).
  assert (Hv' : to_jlong (v' + 0) = v') by (unfold v'; jlong).
  rewrite Hnet, Hv'.
  destruct (CPUTimeGroups.is_gc_counter name); simpl.
  - split_and!.
    + intros k. destruct (decide (k = name)); done.
    + jlong.
    + intros _. jlong.
  - split_and!; [|done|done].
    intros k. destruct (decide (k = name)); done.
Qed.

Lemma destructor_twice_witness :
  ∃ s' s'',
    ThreadTotalCPUTimeClosure.destructor Examples.counters
      {| ThreadTotalCPUTimeClosure._gc_total := 60;
         ThreadTotalCPUTimeClosure._name := CPUTimeGroups.gc_service |} = Done s' ∧
    ThreadTotalCPUTimeClosure.destructor s'
      {| ThreadTotalCPUTimeClosure._gc_total := 60;
         ThreadTotalCPUTimeClosure._name := CPUTimeGroups.gc_service |} = Done s'' ∧
    CPUTimeCounters._gc_total_cpu_time_diff s'' = 60.
Proof.
  eexists _. 
  destruct (destructor_twice Examples.counters
              {| ThreadTotalCPUTimeClosure._gc_total := 60;
                 ThreadTotalCPUTimeClosure._name := CPUTimeGroups.gc_service |} _
              eq_refl) as (s'' & Hrun & _ & _ & Hdiff).
  exists s''. split_and!; [reflexivity | exact Hrun |].
  rewrite Hdiff; by vm_compute.
Defined.

Lemma publish_inv fuel s s' :
  CPUTimeCounters.publish_gc_total_cpu_time fuel s = Some (Done s') →
  ∃ c, CPUTimeCounters.get_counter s CPUTimeGroups.gc_total = Some c ∧
       s' = {| CPUTimeCounters._cpu_time_counters := λ k,
                 if decide (k = CPUTimeGroups.gc_total)
                 then Some (to_jlong (c + CPUTimeCounters._gc_total_cpu_time_diff s))
                 else CPUTimeCounters._cpu_time_counters s k;
               CPUTimeCounters._gc_total_cpu_time_diff := 0 |}.
Proof.
  destruct fuel as [|fuel]; [done|].
  destruct (CPUTimeCounters.get_counter s CPUTimeGroups.gc_total) as [c|] eqn:Hc.
  - rewrite (publish_sequential fuel s c Hc). intros [= <-]. by exists c.
  - unfold CPUTimeCounters.publish_gc_total_cpu_time.
    rewrite publish_loop_sequential. unfold CPUTimeCounters.PerfCounter_inc.
    unfold CPUTimeCounters.get_counter in Hc. simpl. by rewrite Hc.
Qed.

Lemma step_balance s s' :
  ThreadTotalCPUTimeClosure.step s s' →
  ThreadTotalCPUTimeClosure.balance s' = ThreadTotalCPUTimeClosure.balance s.
Proof.
  intros [s0 c s1 Hname Hrun | fuel s0 s1 Hrun].
  - destruct (destructor_inv _ _ _ Hrun) as [v Hv].
    rewrite (destructor_done _ _ _ Hv) in Hrun. injection Hrun as <-.
    unfold ThreadTotalCPUTimeClosure.balance, ThreadTotalCPUTimeClosure.gc_sum,
      PerfCounter.value, CPUTimeCounters.get_counter in *.
    destruct c as [T name]. simpl in *.
    destruct name; try done; simpl; rewrite Hv; simpl; jlong.
  - destruct (publish_inv _ _ _ Hrun) as (c & Hc & ->).
    unfold ThreadTotalCPUTimeClosure.balance, ThreadTotalCPUTimeClosure.gc_sum,
      PerfCounter.value, CPUTimeCounters.get_counter in *.
    simpl. rewrite Hc. simpl. jlong.
Qed.

(** X18.  Whatever closures of groups other than [gc_total] a thread
    destroys and however often it publishes in between, the counter of
    [gc_total] plus the difference not yet published keeps its distance
    to the sum of the four GC group counters, in [jlong] arithmetic.  So
    when they agreed at the start (all at zero, say), the counter of
    [gc_total] is the sum of the GC group counters after every publish,
    and the groups [vm] and [conc_dedup] never count. *)
Theorem gc_total_tracks_gc_groups s s' :
  ThreadTotalCPUTimeClosure.steps s s' →
  ThreadTotalCPUTimeClosure.balance s' = ThreadTotalCPUTimeClosure.balance s ∧
  (ThreadTotalCPUTimeClosure.balance s = 0 →
   CPUTimeCounters._gc_total_cpu_time_diff s' = 0 →
   to_jlong (PerfCounter.value s' CPUTimeGroups.gc_total)
   = to_jlong (ThreadTotalCPUTimeClosure.gc_sum s')).
Proof.
  intros Hsteps.
  assert (Hbal : ThreadTotalCPUTimeClosure.balance s'
                 = ThreadTotalCPUTimeClosure.balance s).
  { induction Hsteps as [s | s s1 s2 Hstep _ IH]; [done|].
    rewrite IH. by apply step_balance. }
  split; [exact Hbal|]. intros Hzero Hdiff. rewrite Hzero in Hbal.
  unfold ThreadTotalCPUTimeClosure.balance in Hbal. rewrite Hdiff in Hbal.
  revert Hbal.
  generalize (PerfCounter.value s' CPUTimeGroups.gc_total),
    (ThreadTotalCPUTimeClosure.gc_sum s').
  intros a b Hbal. jlong.
Qed.

Lemma gc_total_tracks_gc_groups_witness :
  ∃ s1 s2 s3,
    ThreadTotalCPUTimeClosure.destructor Examples.counters Examples.closure_workers
    = Done s1 ∧
    ThreadTotalCPUTimeClosure.destructor s1 Examples.closure_vm = Done s2 ∧
    CPUTimeCounters.publish_gc_total_cpu_time 1 s2 = Some (Done s3) ∧
    to_jlong (PerfCounter.value s3 CPUTimeGroups.gc_total)
    = to_jlong (ThreadTotalCPUTimeClosure.gc_sum s3) ∧
    ThreadTotalCPUTimeClosure.gc_sum s3 = 60.
Proof.
  eexists _, _, _.
  split; [reflexivity|]. split; [reflexivity|]. split; [reflexivity|].
  split; [|by vm_compute].
  match goal with
  | |- to_jlong (PerfCounter.value ?s3 _) = _ =>
      assert (Hsteps : ThreadTotalCPUTimeClosure.steps Examples.counters s3)
  end.
  { eapply ThreadTotalCPUTimeClosure.steps_step;
      [apply (ThreadTotalCPUTimeClosure.step_destructor _ Examples.closure_workers _);
       [discriminate | reflexivity]|].
    eapply ThreadTotalCPUTimeClosure.steps_step;
      [apply (ThreadTotalCPUTimeClosure.step_destructor _ Examples.closure_vm _);
       [discriminate | reflexivity]|].
    eapply ThreadTotalCPUTimeClosure.steps_step;
      [apply (ThreadTotalCPUTimeClosure.step_publish 1); reflexivity|].
    apply ThreadTotalCPUTimeClosure.steps_refl. }
  apply (proj2 (gc_total_tracks_gc_groups _ _ Hsteps)); by vm_compute.
Defined.

(** ** [publish_gc_total_cpu_time] among other threads *)

(** What the loop returns: the difference accumulated up to the
    exchange that succeeded, which it clears. *)
Lemma interleaved_loop_result others :
  ∀ s fetched_value v s' turns,
    Interleaved.publish_loop others s fetched_value = Some (v, s', turns) →
    (1 <= turns <= length others)%nat ∧
    v = CPUTimeCounters._gc_total_cpu_time_diff
          (CPUTimeCounters.inc_all s (concat (take turns others))) ∧
    CPUTimeCounters._cpu_time_counters s' = CPUTimeCounters._cpu_time_counters s ∧
    CPUTimeCounters._gc_total_cpu_time_diff s' = 0.
Proof.
  induction others as [|before others IH]; intros s f v s' turns; simpl; [done|].
  unfold CPUTimeCounters.Atomic_cmpxchg.
  destruct (Z.eqb_spec
              (CPUTimeCounters._gc_total_cpu_time_diff (CPUTimeCounters.inc_all s before))
              f) as [Heq | Hne].
  - rewrite Heq, Z.eqb_refl. simpl. intros [= <- <- <-]. simpl.
    rewrite ?take_0, ?app_nil_r. simpl.
    split_and!; [lia | lia | done | apply inc_all_counters | done].
  - destruct (Z.eqb_spec f
                (CPUTimeCounters._gc_total_cpu_time_diff
                   (CPUTimeCounters.inc_all s before))) as [Heq | _]; [done|].
    simpl.
    destruct (Interleaved.publish_loop others (CPUTimeCounters.inc_all s before)
                (CPUTimeCounters._gc_total_cpu_time_diff
                   (CPUTimeCounters.inc_all s before)))
      as [[[v0 s0] t0]|] eqn:Hloop; [|done].
    intros [= <- <- <-].
    destruct (IH _ _ _ _ _ Hloop) as (Ht & Hv & Hc & Hd).
    simpl. rewrite inc_all_app.
    split_and!; [lia | lia | done | by rewrite Hc, inc_all_counters | done].
Qed.

(** X19.  However other threads' [inc_gc_total_cpu_time] calls fall
    between the publisher's atomic operations, a publish that ends loses
    and doubles nothing: the counter of [gc_total] gains, as a [jlong],
    the difference there was plus all amounts added up to the exchange
    that succeeded; the amounts added after it are what the accumulated
    difference holds; and the counter and the difference together have
    gained the sum of all amounts. *)
Theorem publish_among_increments_conserves before_load others after_loop s c r turns :
  CPUTimeCounters.get_counter s CPUTimeGroups.gc_total = Some c →
  Interleaved.publish_gc_total_cpu_time before_load others after_loop s
  = Some (r, turns) →
  let d := CPUTimeCounters._gc_total_cpu_time_diff s in
  let taken := before_load ++ concat (take turns others) in
  ∃ s', r = Done s' ∧ (1 <= turns <= length others)%nat ∧
    CPUTimeCounters.get_counter s' CPUTimeGroups.gc_total
    = Some (to_jlong (c + d + CPUTimeCounters.sum taken)) ∧
    to_jlong (CPUTimeCounters._gc_total_cpu_time_diff s')
    = to_jlong (CPUTimeCounters.sum after_loop) ∧
    to_jlong (PerfCounter.value s' CPUTimeGroups.gc_total
              + CPUTimeCounters._gc_total_cpu_time_diff s')
    = to_jlong (c + d + CPUTimeCounters.sum taken + CPUTimeCounters.sum after_loop) ∧
    (∀ name, name ≠ CPUTimeGroups.gc_total →
       CPUTimeCounters.get_counter s' name = CPUTimeCounters.get_counter s name).
Proof.
  intros Hc Hrun d taken. revert Hrun.
  unfold Interleaved.publish_gc_total_cpu_time, CPUTimeCounters.Atomic_load.
  destruct (Interleaved.publish_loop others (CPUTimeCounters.inc_all s before_load) _)
    as [[[v s0] t]|] eqn:Hloop; [|done].
  intros [= <- <-].
  destruct (interleaved_loop_result _ _ _ _ _ _ Hloop) as (Ht & Hv & Hcs & Hd).
  rewrite <- inc_all_app in Hv. fold taken in Hv.
  pose proof (inc_all_diff_mod s taken) as Htaken. rewrite <- Hv in Htaken. fold d in Htaken.
  pose proof (inc_all_diff_mod s0 after_loop) as Hafter. rewrite Hd in Hafter.
  unfold CPUTimeCounters.get_counter in *.
  unfold CPUTimeCounters.PerfCounter_inc.
  rewrite inc_all_counters, Hcs, inc_all_counters, Hc.
  eexists. split; [done|]. unfold PerfCounter.value, CPUTimeCounters.get_counter. simpl.
  split; [lia|].
  revert Htaken Hafter.
  generalize (CPUTimeCounters.sum taken) (CPUTimeCounters.sum after_loop)
    (CPUTimeCounters._gc_total_cpu_time_diff (CPUTimeCounters.inc_all s0 after_loop)).
  intros st sa da Htaken Hafter.
  split_and!.
  - f_equal. jlong.
  - jlong.
  - jlong.
  - intros name Hname. by rewrite decide_False.
Qed.

Lemma publish_among_increments_conserves_witness :
  ∃ s',
    Interleaved.publish_gc_total_cpu_time [1] [[2]; [3]; []; [100]] [4] Examples.counters
    = Some (Done s', 3%nat) ∧
    CPUTimeCounters.get_counter s' CPUTimeGroups.gc_total = Some 6 ∧
    to_jlong (CPUTimeCounters._gc_total_cpu_time_diff s') = 4.
Proof.
  destruct (publish_among_increments_conserves [1] [[2]; [3]; []; [100]] [4]
              Examples.counters 0
              (CPUTimeCounters.PerfCounter_inc
                 {| CPUTimeCounters._cpu_time_counters :=
                      CPUTimeCounters._cpu_time_counters Examples.counters;
                    CPUTimeCounters._gc_total_cpu_time_diff := 4 |}
                 CPUTimeGroups.gc_total 6)
              3%nat) as (s' & Hr & _ & Hcounter & Hdiff & _).
  - reflexivity.
  - reflexivity.
  - exists s'. split_and!; [rewrite <- Hr; reflexivity | exact Hcounter | exact Hdiff].
Defined.

(** X20.  The publisher gets through at the latest in the first turn of
    its loop before which no other thread adds anything, whatever the
    others added before the earlier turns and add later; alone it needs
    one turn and does what the sequential [publish_gc_total_cpu_time]
    does. *)
Theorem publish_among_increments_ends before_load quiet others after_loop s :
  (∃ r turns,
     Interleaved.publish_gc_total_cpu_time before_load (quiet ++ [] :: others)
       after_loop s = Some (r, turns) ∧
     (turns <= S (length quiet))%nat) ∧
  ∀ fuel,
    fst <$> Interleaved.publish_gc_total_cpu_time [] ([] :: others) [] s
    = CPUTimeCounters.publish_gc_total_cpu_time (S fuel) s.
Proof.
  split.
  - unfold Interleaved.publish_gc_total_cpu_time, CPUTimeCounters.Atomic_load.
    generalize (CPUTimeCounters.inc_all s before_load). clear s. intros s.
    assert (Hloop : ∃ v s' turns,
      Interleaved.publish_loop (quiet ++ [] :: others) s
        (CPUTimeCounters._gc_total_cpu_time_diff s) = Some (v, s', turns) ∧
      (turns <= S (length quiet))%nat).
    { revert s. induction quiet as [|before quiet IH]; intros s; simpl.
      - unfold CPUTimeCounters.Atomic_cmpxchg. rewrite !Z.eqb_refl. simpl.
        eexists _, _, _. split; [done|]. lia.
      - unfold CPUTimeCounters.Atomic_cmpxchg.
        set (s1 := CPUTimeCounters.inc_all s before).
        destruct (Z.eqb_spec (CPUTimeCounters._gc_total_cpu_time_diff s1)
                    (CPUTimeCounters._gc_total_cpu_time_diff s)) as [Heq | Hne].
        + rewrite Heq, Z.eqb_refl. simpl. eexists _, _, _. split; [done|]. lia.
        + destruct (Z.eqb_spec (CPUTimeCounters._gc_total_cpu_time_diff s)
                      (CPUTimeCounters._gc_total_cpu_time_diff s1)); [done|].
          simpl. destruct (IH s1) as (v & s' & t & -> & Ht).
          eexists _, _, _. split; [done|]. lia. }
    destruct Hloop as (v & s' & t & -> & Ht). by eexists _, _.
  - intros fuel.
    unfold Interleaved.publish_gc_total_cpu_time,
      CPUTimeCounters.publish_gc_total_cpu_time.
    rewrite publish_loop_sequential. simpl.
    unfold CPUTimeCounters.Atomic_cmpxchg, CPUTimeCounters.Atomic_load.
    by rewrite !Z.eqb_refl.
Qed.
